(** * TodoManager (tarefa3-todo-manager/todoManager.js)

    A shallow embedding of the in-memory task manager and of its
    Jira-style code generator, and the properties of the specification
    that are checked against it.

    Modelling conventions.
    - JavaScript values that reach the API from callers are terms of
      [jsval]; an object is the list of its own properties.
    - Strings are [string]s; [trim], [toUpperCase] and [toLowerCase] are
      the restrictions of the JavaScript built-ins to ASCII code units and
      agree with them on ASCII strings only. Titles and queries are any
      text, and so the search by title is also given with the two
      built-ins it calls as parameters ([searchByTitle_with]).
    - Numbers that the program itself produces (identifiers, counters,
      clock readings) are exact integers [Z]; a number supplied by a caller
      is a [number], which also covers fractions, NaN and the infinities.
    - Task objects and Array objects live in a heap and are handled through
      references, as in the source: the store's array, the arrays returned
      to callers and the task references they contain can alias.
    - [new Date()] reads a clock; the reading is an argument [now] of every
      operation that reads it, and the readings taken within one call are
      the same instant.
    - A thrown exception is a result [inl e] together with the heap as it
      is at the throw: writes made before a throw are not undone. *)

From Stdlib Require Import QArith.
From stdpp Require Import base list sorting strings pretty gmap.
From Stdlib Require Import Ascii.

Local Open Scope Z_scope.

(** ** JavaScript values *)

Inductive number :=
| Finite (q : Q)
| NaN
| PosInf
| NegInf.

#[warnings="-register-all"]
Inductive jsval :=
| VUndefined
| VNull
| VBool (b : bool)
| VNum (n : number)
| VStr (s : string)
| VObj (props : list (string * jsval)).

(** [o.k] for an own data property; a missing property reads [undefined]. *)
Fixpoint get_prop (props : list (string * jsval)) (k : string) : jsval :=
  match props with
  | [] => VUndefined
  | (k', v) :: rest => if String.eqb k' k then v else get_prop rest k
  end.

Definition prop (v : jsval) (k : string) : jsval :=
  match v with
  | VObj props => get_prop props k
  | _ => VUndefined
  end.

Definition typeof (v : jsval) : string :=
  match v with
  | VUndefined => "undefined"
  | VNull => "object"
  | VBool _ => "boolean"
  | VNum _ => "number"
  | VStr _ => "string"
  | VObj _ => "object"
  end.

(** ToBoolean. *)
Definition truthy (v : jsval) : bool :=
  match v with
  | VUndefined | VNull => false
  | VBool b => b
  | VNum (Finite q) => negb (Qeq_bool q 0)
  | VNum NaN => false
  | VNum _ => true
  | VStr s => negb (String.eqb s "")
  | VObj _ => true
  end.

(** [v != null], which is also the test behind [v ?? d]. *)
Definition nullish (v : jsval) : bool :=
  match v with
  | VUndefined | VNull => true
  | _ => false
  end.

Definition coalesce (v d : jsval) : jsval := if nullish v then d else v.

(** [a === b] on numbers. *)
Definition number_seq (a b : number) : bool :=
  match a, b with
  | Finite p, Finite q => Qeq_bool p q
  | PosInf, PosInf => true
  | NegInf, NegInf => true
  | _, _ => false
  end.

Definition is_integer (n : number) : bool :=
  match n with
  | Finite q => (Qnum q mod Zpos (Qden q) =? 0)
  | _ => false
  end.

(** [x === v] for a task identifier [x] and an arbitrary value [v]. *)
Definition id_seq (x : Z) (v : jsval) : bool :=
  match v with
  | VNum n => number_seq (Finite (inject_Z x)) n
  | _ => false
  end.

(** ** Strings *)

Definition code_of (c : ascii) : N := N_of_ascii c.

Definition is_upper (c : ascii) : bool := ((65 <=? code_of c) && (code_of c <=? 90))%N.
Definition is_lower (c : ascii) : bool := ((97 <=? code_of c) && (code_of c <=? 122))%N.
Definition is_digit (c : ascii) : bool := ((48 <=? code_of c) && (code_of c <=? 57))%N.

(** White space and line terminators removed by [String.prototype.trim]:
    TAB, LF, VT, FF, CR and SPACE. *)
Definition is_space (c : ascii) : bool :=
  (((9 <=? code_of c) && (code_of c <=? 13)) || (code_of c =? 32))%N.

Definition upper_char (c : ascii) : ascii :=
  if is_lower c then ascii_of_N (code_of c - 32) else c.
Definition lower_char (c : ascii) : ascii :=
  if is_upper c then ascii_of_N (code_of c + 32) else c.

Fixpoint map_string (f : ascii -> ascii) (s : string) : string :=
  match s with
  | EmptyString => EmptyString
  | String c s' => String (f c) (map_string f s')
  end.

Definition toUpperCase : string -> string := map_string upper_char.
Definition toLowerCase : string -> string := map_string lower_char.

Fixpoint trimStart (s : string) : string :=
  match s with
  | EmptyString => EmptyString
  | String c s' => if is_space c then trimStart s' else s
  end.

Fixpoint all_space (s : string) : bool :=
  match s with
  | EmptyString => true
  | String c s' => is_space c && all_space s'
  end.

Fixpoint trimEnd (s : string) : string :=
  match s with
  | EmptyString => EmptyString
  | String c s' => if all_space s then EmptyString else String c (trimEnd s')
  end.

Definition trim (s : string) : string := trimEnd (trimStart s).

(** [h.includes(n)] *)
Fixpoint includes (h n : string) : bool :=
  if String.prefix n h then true
  else match h with
       | EmptyString => false
       | String _ h' => includes h' n
       end.

Fixpoint all_chars (p : ascii -> bool) (s : string) : bool :=
  match s with
  | EmptyString => true
  | String c s' => p c && all_chars p s'
  end.

Definition is_key_char (c : ascii) : bool := is_upper c || is_digit c.

(** [/^[A-Z][A-Z0-9]{1,9}$/.test(s)] *)
Definition test_key (s : string) : bool :=
  match s with
  | EmptyString => false
  | String c rest =>
      is_upper c && all_chars is_key_char rest
      && (1 <=? String.length rest)%nat && (String.length rest <=? 9)%nat
  end.

(** [/^[A-Z][A-Z0-9]{1,9}-\d+$/.test(s)]: the key is the longest prefix of
    key characters, it is followed by a dash and one or more digits. *)
Fixpoint split_key (s : string) : string * string :=
  match s with
  | EmptyString => (EmptyString, EmptyString)
  | String c s' =>
      if is_key_char c then let '(k, r) := split_key s' in (String c k, r)
      else (EmptyString, s)
  end.

Definition test_code (s : string) : bool :=
  let '(k, r) := split_key s in
  test_key k &&
  match r with
  | String "-" ds => negb (String.eqb ds "") && all_chars is_digit ds
  | _ => false
  end.

(** ** Errors *)

(** The two exception classes of the module; the message texts are not
    modelled. *)
Inductive error :=
| InvalidInputError
| NotFoundError.

Global Instance error_eq_dec : EqDecision error.
Proof. solve_decision. Defined.

(** ** validateProjectKey *)

Definition validateProjectKey (key : jsval) : error + string :=
  match key with
  | VStr s =>
      let norm := toUpperCase (trim s) in
      if test_key norm then inr norm else inl InvalidInputError
  | _ => inl InvalidInputError
  end.


(** ** CodeGenerator *)

Record CodeGenerator := { counters : gmap string Z }.

(** [new CodeGenerator()] *)
Definition new_CodeGenerator : CodeGenerator := {| counters := ∅ |}.

(** [this.counters.get(key) ?? 0] *)
Definition counter (g : CodeGenerator) (key : string) : Z :=
  default 0 (counters g !! key).

(** The template literal [`${key}-${next}`]. *)
Definition format_code (key : string) (n : Z) : string :=
  key +:+ "-" +:+ pretty n.

Definition next (projectKey : jsval) (g : CodeGenerator)
  : (error + string) * CodeGenerator :=
  match validateProjectKey projectKey with
  | inl e => (inl e, g)
  | inr key =>
      let current := counter g key in
      let next := current + 1 in
      (inr (format_code key next), {| counters := <[key := next]> (counters g) |})
  end.

Definition peek (projectKey : jsval) (g : CodeGenerator) : error + Z :=
  match validateProjectKey projectKey with
  | inl e => inl e
  | inr key => inr (counter g key)
  end.

(** A history of [next] calls on one generator. *)
Fixpoint next_all (args : list jsval) (g : CodeGenerator) : CodeGenerator :=
  match args with
  | [] => g
  | a :: rest => next_all rest (snd (next a g))
  end.

(** How many of the calls [args] were for the normalized key [key]. *)
Fixpoint calls_for (key : string) (args : list jsval) : Z :=
  match args with
  | [] => 0
  | a :: rest =>
      (if decide (validateProjectKey a = inr key) then 1 else 0) + calls_for key rest
  end.


(** ** Task objects and the heap *)

(** A reference to a heap object. *)
Abbreviation loc := nat (only parsing).

Module Task.
Record t := mk {
  id : Z;
  code : string;
  title : string;
  description : jsval;
  status : string;
  priority : string;
  createdAt : Z;
  updatedAt : Z;
  completedAt : option Z;
}.

(** Field assignments [task.f = v]. *)
Definition set_title (v : string) (x : t) : t :=
  mk (id x) (code x) v (description x) (status x) (priority x)
     (createdAt x) (updatedAt x) (completedAt x).
Definition set_description (v : jsval) (x : t) : t :=
  mk (id x) (code x) (title x) v (status x) (priority x)
     (createdAt x) (updatedAt x) (completedAt x).
Definition set_status (v : string) (x : t) : t :=
  mk (id x) (code x) (title x) (description x) v (priority x)
     (createdAt x) (updatedAt x) (completedAt x).
Definition set_priority (v : string) (x : t) : t :=
  mk (id x) (code x) (title x) (description x) (status x) v
     (createdAt x) (updatedAt x) (completedAt x).
Definition set_updatedAt (v : Z) (x : t) : t :=
  mk (id x) (code x) (title x) (description x) (status x) (priority x)
     (createdAt x) v (completedAt x).
Definition set_completedAt (v : option Z) (x : t) : t :=
  mk (id x) (code x) (title x) (description x) (status x) (priority x)
     (createdAt x) (updatedAt x) v.
End Task.

Global Instance Task_inhabited : Inhabited Task.t :=
  populate (Task.mk 0 "" "" VUndefined "" "" 0 0 None).

(** The heap and the fields of the one [TodoManager] instance [this].
    [objs] holds the Task objects and [arrs] the Array objects (arrays of
    task references); a reference is an index, and [new] appends. *)
Record state := mk_state {
  objs : list Task.t;
  arrs : list (list loc);
  _tasks : loc;
  _nextId : Z;
  _codes : CodeGenerator;
}.

Definition set_objs (f : list Task.t -> list Task.t) (σ : state) : state :=
  mk_state (f (objs σ)) (arrs σ) (_tasks σ) (_nextId σ) (_codes σ).
Definition set_arrs (f : list (list loc) -> list (list loc)) (σ : state) : state :=
  mk_state (objs σ) (f (arrs σ)) (_tasks σ) (_nextId σ) (_codes σ).
Definition set_nextId (v : Z) (σ : state) : state :=
  mk_state (objs σ) (arrs σ) (_tasks σ) v (_codes σ).
Definition set_codes (v : CodeGenerator) (σ : state) : state :=
  mk_state (objs σ) (arrs σ) (_tasks σ) (_nextId σ) v.

(** Dereferencing. Reachable states contain no dangling reference (see
    [heap_ok]), so the default of the total lookups is never read there. *)
Definition task_at (σ : state) (r : loc) : Task.t := objs σ !!! r.
Definition array_at (σ : state) (a : loc) : list loc := arrs σ !!! a.

(** The contents of [this._tasks]. *)
Definition store (σ : state) : list loc := array_at σ (_tasks σ).

(** ** Computations: state and exceptions *)

Definition M (A : Type) : Type := state -> (error + A) * state.

Global Instance M_ret : MRet M := λ A a σ, (inr a, σ).
Global Instance M_bind : MBind M := λ A B f m σ,
  match m σ with
  | (inr a, σ') => f a σ'
  | (inl e, σ') => (inl e, σ')
  end.

Global Instance M_fmap : FMap M := λ A B f m σ,
  match m σ with
  | (inr a, σ') => (inr (f a), σ')
  | (inl e, σ') => (inl e, σ')
  end.

Definition throw {A} (e : error) : M A := λ σ, (inl e, σ).
Definition gets {A} (f : state -> A) : M A := λ σ, (inr (f σ), σ).
Definition modify (f : state -> state) : M unit := λ σ, (inr tt, f σ).
Definition lift {A} (r : error + A) : M A :=
  match r with
  | inl e => throw e
  | inr a => mret a
  end.

(** [new Task({...})] *)
Definition new_Task (x : Task.t) : M loc :=
  r ← gets (λ σ, length (objs σ));
  modify (set_objs (λ h, h ++ [x]));;
  mret r.

(** A fresh Array object with the given elements. *)
Definition new_Array (l : list loc) : M loc :=
  a ← gets (λ σ, length (arrs σ));
  modify (set_arrs (λ h, h ++ [l]));;
  mret a.

(** [task.f = v] *)
Definition assign (task : loc) (f : Task.t -> Task.t) : M unit :=
  modify (set_objs (alter f task)).

(** ** Constants *)

Module STATUSES.
Definition TODO : string := "todo".
Definition IN_PROGRESS : string := "in_progress".
Definition DONE : string := "done".
End STATUSES.

Module PRIORITIES.
Definition LOW : string := "low".
Definition MEDIUM : string := "medium".
Definition HIGH : string := "high".
End PRIORITIES.

Definition VALID_STATUS : list string :=
  [STATUSES.TODO; STATUSES.IN_PROGRESS; STATUSES.DONE].
Definition VALID_PRIORITY : list string :=
  [PRIORITIES.LOW; PRIORITIES.MEDIUM; PRIORITIES.HIGH].

(** [set.has(v)] for a Set of strings: only a string primitive can be a
    member; the member found is returned. *)
Definition has (set : list string) (v : jsval) : option string :=
  match v with
  | VStr s => if bool_decide (s ∈ set) then Some s else None
  | _ => None
  end.

(** ** applyChanges *)

Definition applyChanges (task : loc) (changes : jsval) (now : Z) : M unit :=
  (if negb (nullish (prop changes "title")) then
     match prop changes "title" with
     | VStr s =>
         if String.eqb (trim s) "" then throw InvalidInputError
         else assign task (Task.set_title (trim s))
     | _ => throw InvalidInputError
     end
   else mret tt);;
  (if negb (nullish (prop changes "description")) then
     match prop changes "description" with
     | VStr s => assign task (Task.set_description (VStr s))
     | _ => throw InvalidInputError
     end
   else mret tt);;
  (if negb (nullish (prop changes "priority")) then
     match has VALID_PRIORITY (prop changes "priority") with
     | Some p => assign task (Task.set_priority p)
     | None => throw InvalidInputError
     end
   else mret tt);;
  (if negb (nullish (prop changes "status")) then
     match has VALID_STATUS (prop changes "status") with
     | Some s =>
         assign task (Task.set_status s);;
         st ← gets (λ σ, Task.status (task_at σ task));
         assign task (Task.set_completedAt
                        (if String.eqb st STATUSES.DONE then Some now else None))
     | None => throw InvalidInputError
     end
   else mret tt);;
  assign task (Task.set_updatedAt now).

(** ** includesCI *)

Definition includesCI (haystack needle : string) : bool :=
  includes (toLowerCase haystack) (toLowerCase needle).

(** ** TodoManager *)

(** [new TodoManager()] on an empty heap: the constructor allocates the
    empty array [this._tasks]. *)
Definition new_TodoManager : state :=
  {| objs := []; arrs := [[]]; _tasks := 0%nat; _nextId := 1;
     _codes := new_CodeGenerator |}.

(** Values returned by the API: nothing, a task reference, an array
    reference, or the plain object built by [countByStatus]. *)
Inductive retval :=
| RUndefined
| RTask (task : loc)
| RArray (arr : loc)
| RObject (props : list (string * number)).

(** [this._nextId++] *)
Definition post_incr_nextId : M Z :=
  n ← gets _nextId;
  modify (set_nextId (n + 1));;
  mret n.

(** [this._codes.next(projectKey)] *)
Definition codes_next (projectKey : jsval) : M string :=
  λ σ, let '(r, g) := next projectKey (_codes σ) in (r, set_codes g σ).

(** [this._tasks.push(task)] *)
Definition tasks_push (task : loc) : M unit :=
  modify (λ σ, set_arrs (alter (λ l, l ++ [task]) (_tasks σ)) σ).

(** [this._tasks.splice(idx, 1)] *)
Definition tasks_splice (idx : nat) : M unit :=
  modify (λ σ, set_arrs (alter (delete idx) (_tasks σ)) σ).

(** [arr.findIndex(p)]; [None] stands for -1. *)
Fixpoint findIndex {A} (p : A -> bool) (l : list A) : option nat :=
  match l with
  | [] => None
  | x :: rest => if p x then Some 0%nat else S <$> findIndex p rest
  end.

Definition createTask (input : jsval) (now : Z) : M loc :=
  if negb (truthy input) || negb (String.eqb (typeof input) "object")
  then throw InvalidInputError else
  let title := match prop input "title" with VStr s => trim s | _ => "" end in
  if String.eqb title "" then throw InvalidInputError else
  let description := coalesce (prop input "description") (VStr "") in
  let priority := coalesce (prop input "priority") (VStr PRIORITIES.MEDIUM) in
  match has VALID_PRIORITY priority with
  | None => throw InvalidInputError
  | Some priority =>
      projectKey ← lift (validateProjectKey
                            (coalesce (prop input "projectKey") (VStr "TASK")));
      id ← post_incr_nextId;
      code ← codes_next (VStr projectKey);
      task ← new_Task (Task.mk id code title description STATUSES.TODO
                          priority now now None);
      tasks_push task;;
      mret task
  end.

Definition listTasks : M loc :=
  l ← gets store;
  new_Array l.

Definition getTask (id : jsval) : M loc :=
  if negb (String.eqb (typeof id) "number") then throw InvalidInputError else
  σ ← gets (λ σ, σ);
  match List.find (λ t, id_seq (Task.id (task_at σ t)) id) (store σ) with
  | Some t => mret t
  | None => throw NotFoundError
  end.

Definition findByCode (code : jsval) : M loc :=
  match code with
  | VStr c =>
      if negb (test_code (toUpperCase (trim c))) then throw InvalidInputError else
      let norm := toUpperCase (trim c) in
      σ ← gets (λ σ, σ);
      match List.find (λ t, String.eqb (Task.code (task_at σ t)) norm) (store σ) with
      | Some t => mret t
      | None => throw NotFoundError
      end
  | _ => throw InvalidInputError
  end.

Definition updateTask (id changes : jsval) (now : Z) : M loc :=
  task ← getTask id;
  if negb (truthy changes) || negb (String.eqb (typeof changes) "object")
  then throw InvalidInputError else
  applyChanges task
    (VObj [("title", prop changes "title");
           ("description", prop changes "description");
           ("priority", prop changes "priority")]) now;;
  mret task.

Definition changeStatus (id newStatus : jsval) (now : Z) : M loc :=
  task ← getTask id;
  applyChanges task (VObj [("status", newStatus)]) now;;
  mret task.

Definition removeTask (id : jsval) : M unit :=
  if negb (String.eqb (typeof id) "number") then throw InvalidInputError else
  σ ← gets (λ σ, σ);
  match findIndex (λ t, id_seq (Task.id (task_at σ t)) id) (store σ) with
  | None => throw NotFoundError
  | Some idx => tasks_splice idx
  end.

Definition filterByStatus (status : jsval) : M loc :=
  match has VALID_STATUS status with
  | None => throw InvalidInputError
  | Some s =>
      σ ← gets (λ σ, σ);
      new_Array (List.filter (λ t, String.eqb (Task.status (task_at σ t)) s) (store σ))
  end.

Definition filterByPriority (priority : jsval) : M loc :=
  match has VALID_PRIORITY priority with
  | None => throw InvalidInputError
  | Some p =>
      σ ← gets (λ σ, σ);
      new_Array (List.filter (λ t, String.eqb (Task.priority (task_at σ t)) p) (store σ))
  end.

Definition searchByTitle (query : jsval) : M loc :=
  match query with
  | VStr s =>
      if String.eqb (trim s) "" then throw InvalidInputError else
      let q := trim s in
      σ ← gets (λ σ, σ);
      new_Array (List.filter (λ t, includesCI (Task.title (task_at σ t)) q) (store σ))
  | _ => throw InvalidInputError
  end.

(** [n++] on a property value. *)
Definition number_succ (n : number) : number :=
  match n with
  | Finite q => Finite (q + 1)
  | other => other
  end.

(** [acc[k]++]: a missing property reads [undefined], whose increment
    stores NaN. *)
Fixpoint incr_prop (acc : list (string * number)) (k : string) : list (string * number) :=
  match acc with
  | [] => [(k, NaN)]
  | (k', n) :: rest =>
      if String.eqb k' k then (k', number_succ n) :: rest
      else (k', n) :: incr_prop rest k
  end.

Definition countByStatus : M (list (string * number)) :=
  σ ← gets (λ σ, σ);
  mret (fold_left (λ acc t, incr_prop acc (Task.status (task_at σ t)))
          (store σ)
          [("todo", Finite 0); ("in_progress", Finite 0); ("done", Finite 0)]).

(** ** API calls and reachable states *)

Inductive call :=
| CreateTask (input : jsval)
| ListTasks
| GetTask (id : jsval)
| FindByCode (code : jsval)
| UpdateTask (id changes : jsval)
| ChangeStatus (id newStatus : jsval)
| RemoveTask (id : jsval)
| FilterByStatus (status : jsval)
| FilterByPriority (priority : jsval)
| SearchByTitle (query : jsval)
| CountByStatus.

Definition exec (c : call) (now : Z) : M retval :=
  match c with
  | CreateTask input => RTask <$> createTask input now
  | ListTasks => RArray <$> listTasks
  | GetTask id => RTask <$> getTask id
  | FindByCode code => RTask <$> findByCode code
  | UpdateTask id changes => RTask <$> updateTask id changes now
  | ChangeStatus id newStatus => RTask <$> changeStatus id newStatus now
  | RemoveTask id => removeTask id;; mret RUndefined
  | FilterByStatus status => RArray <$> filterByStatus status
  | FilterByPriority priority => RArray <$> filterByPriority priority
  | SearchByTitle query => RArray <$> searchByTitle query
  | CountByStatus => RObject <$> countByStatus
  end.

(** A run of API calls, each with the clock reading at the call. *)
Fixpoint run (cs : list (call * Z)) (σ : state) : state :=
  match cs with
  | [] => σ
  | (c, now) :: rest => run rest (snd (exec c now σ))
  end.

(** The states a [TodoManager] can be in: the state after construction and
    every state that API calls lead to from there. *)
Inductive reachable : state -> Prop :=
| reachable_new : reachable new_TodoManager
| reachable_call σ c now : reachable σ -> reachable (snd (exec c now σ)).

(** The identifiers of the tasks returned by the successful [createTask]
    calls of a run, in call order, read when the call returns. *)
Fixpoint created_ids (cs : list (call * Z)) (σ : state) : list Z :=
  match cs with
  | [] => []
  | (c, now) :: rest =>
      let '(r, σ') := exec c now σ in
      match c, r with
      | CreateTask _, inr (RTask t) => Task.id (task_at σ' t) :: created_ids rest σ'
      | _, _ => created_ids rest σ'
      end
  end.

(** ** Proof devices: what one call does to the state *)

(** The update that [applyChanges] makes for one field of [changes], or the
    exception it throws there. *)
Definition change_title (changes : jsval) : error + (Task.t -> Task.t) :=
  if negb (nullish (prop changes "title")) then
    match prop changes "title" with
    | VStr s =>
        if String.eqb (trim s) "" then inl InvalidInputError
        else inr (Task.set_title (trim s))
    | _ => inl InvalidInputError
    end
  else inr (λ x, x).

Definition change_description (changes : jsval) : error + (Task.t -> Task.t) :=
  if negb (nullish (prop changes "description")) then
    match prop changes "description" with
    | VStr s => inr (Task.set_description (VStr s))
    | _ => inl InvalidInputError
    end
  else inr (λ x, x).

Definition change_priority (changes : jsval) : error + (Task.t -> Task.t) :=
  if negb (nullish (prop changes "priority")) then
    match has VALID_PRIORITY (prop changes "priority") with
    | Some p => inr (Task.set_priority p)
    | None => inl InvalidInputError
    end
  else inr (λ x, x).

Definition change_status (changes : jsval) (now : Z) : error + (Task.t -> Task.t) :=
  if negb (nullish (prop changes "status")) then
    match has VALID_STATUS (prop changes "status") with
    | Some s =>
        inr (λ x, Task.set_completedAt
                    (if String.eqb s STATUSES.DONE then Some now else None)
                    (Task.set_status s x))
    | None => inl InvalidInputError
    end
  else inr (λ x, x).

(** The outcome of [applyChanges] and the function it has applied to the
    task by the time it returns or throws: the fields are handled in the
    order title, description, priority, status, and the first exception
    stops the run with the earlier writes in place. *)
Definition field_changes (changes : jsval) (now : Z)
  : (error + unit) * (Task.t -> Task.t) :=
  match change_title changes with
  | inl e => (inl e, λ x, x)
  | inr f1 =>
      match change_description changes with
      | inl e => (inl e, f1)
      | inr f2 =>
          match change_priority changes with
          | inl e => (inl e, f2 ∘ f1)
          | inr f3 =>
              match change_status changes now with
              | inl e => (inl e, f3 ∘ f2 ∘ f1)
              | inr f4 => (inr tt, Task.set_updatedAt now ∘ f4 ∘ f3 ∘ f2 ∘ f1)
              end
          end
      end
  end.

(** The state after a successful [createTask]. *)
Definition created (σ : state) (title : string) (description : jsval)
    (priority key : string) (now : Z) : state :=
  {| objs := objs σ ++
       [Task.mk (_nextId σ) (format_code key (counter (_codes σ) key + 1))
          title description STATUSES.TODO priority now now None];
     arrs := alter (λ l, l ++ [length (objs σ)]) (_tasks σ) (arrs σ);
     _tasks := _tasks σ;
     _nextId := _nextId σ + 1;
     _codes := {| counters := <[key := counter (_codes σ) key + 1]>
                                (counters (_codes σ)) |} |}.

(** ** Well-formed tasks and heaps *)

Definition coupled (x : Task.t) : Prop :=
  is_Some (Task.completedAt x) ↔ Task.status x = STATUSES.DONE.

Definition code_ok (c : string) : Prop :=
  ∃ key n, test_key key = true ∧ 1 ≤ n ∧ c = format_code key n.

Record wf_task (x : Task.t) : Prop := {
  wf_title : Task.title x ≠ "" ∧ trim (Task.title x) = Task.title x;
  wf_status : Task.status x ∈ VALID_STATUS;
  wf_priority : Task.priority x ∈ VALID_PRIORITY;
  wf_code : code_ok (Task.code x);
  wf_coupled : coupled x;
}.

(** An update of a task that keeps its identity and its well-formedness. *)
Definition preserving (f : Task.t -> Task.t) : Prop :=
  ∀ x, Task.id (f x) = Task.id x ∧ Task.code (f x) = Task.code x
       ∧ (wf_task x -> wf_task (f x)).

(** The shapes of the state change of a call that creates no task. *)
Inductive quiet (σ : state) : state -> Prop :=
| quiet_same : quiet σ σ
| quiet_array l :
    l `sublist_of` store σ ->
    quiet σ (set_arrs (λ h, h ++ [l]) σ)
| quiet_remove idx :
    quiet σ (set_arrs (alter (delete idx) (_tasks σ)) σ)
| quiet_mutate r f :
    r ∈ store σ -> preserving f ->
    quiet σ (set_objs (alter f r) σ).

(** The shapes of the state change of one API call. *)
Inductive step (σ : state) : state -> Prop :=
| step_quiet σ' : quiet σ σ' -> step σ σ'
| step_create title description priority key now :
    title ≠ "" -> trim title = title -> priority ∈ VALID_PRIORITY ->
    test_key key = true ->
    step σ (created σ title description priority key now).

Definition is_create (c : call) : bool :=
  match c with
  | CreateTask _ => true
  | _ => false
  end.

Record heap_ok (σ : state) : Prop := {
  ok_store : (_tasks σ < length (arrs σ))%nat;
  ok_refs : ∀ a l, arrs σ !! a = Some l -> Forall (λ r, (r < length (objs σ))%nat) l;
  ok_sorted : ∀ a l, arrs σ !! a = Some l -> StronglySorted lt l;
  ok_tasks : Forall wf_task (objs σ);
  ok_ids : ∀ r x, objs σ !! r = Some x -> Task.id x = Z.of_nat r + 1;
  ok_nextId : _nextId σ = Z.of_nat (length (objs σ)) + 1;
  ok_counters : map_Forall (λ _ n, 0 ≤ n) (counters (_codes σ));
}.

(** ** Vocabulary of the specification for [updateTask] *)

(** A field of [changes] is invalid when it is present (neither [null] nor
    [undefined]) and fails the validation of its kind: a title must be a
    string that is not empty after trimming, a description must be a
    string, a priority must be one of the three priorities. *)
Definition invalid_title (v : jsval) : bool :=
  negb (nullish v)
  && match v with VStr s => String.eqb (trim s) "" | _ => true end.

Definition invalid_description (v : jsval) : bool :=
  negb (nullish v) && match v with VStr _ => false | _ => true end.

Definition invalid_priority (v : jsval) : bool :=
  negb (nullish v) && match has VALID_PRIORITY v with Some _ => false | None => true end.

Definition has_invalid_field (changes : jsval) : bool :=
  invalid_title (prop changes "title")
  || invalid_description (prop changes "description")
  || invalid_priority (prop changes "priority").

(** The task as a failed [updateTask] leaves it: the valid fields that come
    before the first invalid one, in the order title, description,
    priority, have been written; nothing else has. *)
Definition write_title (v : jsval) (x : Task.t) : Task.t :=
  match v with
  | VStr s => Task.set_title (trim s) x
  | _ => x
  end.

Definition write_description (v : jsval) (x : Task.t) : Task.t :=
  match v with
  | VStr s => Task.set_description (VStr s) x
  | _ => x
  end.

Definition after_failed_update (changes : jsval) (x : Task.t) : Task.t :=
  if invalid_title (prop changes "title") then x
  else if invalid_description (prop changes "description")
       then write_title (prop changes "title") x
       else write_description (prop changes "description")
              (write_title (prop changes "title") x).

(** An argument that is not an integer: any value that is not a number, and
    any number that is not integral. *)
Definition not_integer (v : jsval) : Prop :=
  match v with
  | VNum n => is_integer n = false
  | _ => True
  end.

(** ** Sample data *)

Definition demo_input (title key : string) : jsval :=
  VObj [("title", VStr title); ("description", VStr ""); ("projectKey", VStr key)].

(** The end-to-end scenario of the specification: two tasks of project
    PROJ, the second one completed and then reopened. *)
Definition demo_calls : list (call * Z) :=
  [(CreateTask (demo_input "Implementar LOGIN" "PROJ"), 10);
   (CreateTask (demo_input "Logout" "proj"), 11);
   (ChangeStatus (VNum (Finite 2)) (VStr "done"), 12);
   (ChangeStatus (VNum (Finite 2)) (VStr "todo"), 13)].

(** One task titled "Old", and a changes record whose title is valid and
    whose priority is not. *)
Definition old_task_state : state :=
  run [(CreateTask (demo_input "Old" "PROJ"), 1)] new_TodoManager.

Definition bad_changes : jsval :=
  VObj [("title", VStr "New"); ("priority", VStr "urgent")].

(** ** Proof devices for strings and for the monad *)

(** The result of [trimStart] does not begin with white space. *)
Definition starts_clean (s : string) : Prop :=
  match s with
  | EmptyString => True
  | String c _ => is_space c = false
  end.

(** Unfolds the monad operations. *)
Ltac run_M :=
  unfold mbind, M_bind, fmap, M_fmap, mret, M_ret, lift, throw, gets, modify
    in *; simpl in *.

(** Names the components of a [heap_ok] hypothesis. *)
Ltac open_ok Hok :=
  pose proof Hok as [Hstore Hrefs Hsorted Htasks Hids Hnext Hcnt].

(** ** Further vocabulary for the store *)

(** [task.priority = v] when [v] is one of the three priorities. *)
Definition write_priority (v : jsval) (x : Task.t) : Task.t :=
  match has VALID_PRIORITY v with
  | Some p => Task.set_priority p x
  | None => x
  end.

(** The number literal that denotes an integer. *)
Definition num (z : Z) : jsval := VNum (Finite (inject_Z z)).

(** The codes issued so far: every Task object ever created carries the
    code of a valid key with a number between 1 and the key's counter, and
    no two objects carry the same code. *)
Definition codes_ok (σ : state) : Prop :=
  (∀ r x, objs σ !! r = Some x ->
     ∃ key n, test_key key = true ∧ 1 ≤ n ≤ counter (_codes σ) key
              ∧ Task.code x = format_code key n)
  ∧ (∀ r1 r2 x1 x2, objs σ !! r1 = Some x1 -> objs σ !! r2 = Some x2 ->
       Task.code x1 = Task.code x2 -> r1 = r2).

(** How one call can change the Task objects: not at all, by one new
    object, or by [applyChanges] on one object of the store. *)
Inductive objs_step (σ : state) : list Task.t -> Prop :=
| objs_same : objs_step σ (objs σ)
| objs_new x : objs_step σ (objs σ ++ [x])
| objs_changed t changes now :
    t ∈ store σ ->
    objs_step σ (alter (snd (field_changes changes now)) t (objs σ)).

(** The number of tasks with a given status, among the tasks [l] and in
    the store. *)
Definition count_in (σ : state) (s : string) (l : list loc) : Z :=
  Z.of_nat (length (List.filter (λ t, String.eqb (Task.status (task_at σ t)) s) l)).

Definition count_status (σ : state) (s : string) : Z := count_in σ s (store σ).

(** A string none of whose characters is white space or a lower-case
    letter is its own trimmed upper-case form. *)
Definition is_plain_char (c : ascii) : bool := negb (is_space c) && negb (is_lower c).

(** * The bracket validator

    [isValid] and [findFirstError] of the bracket validator, for a string
    argument: the loop reads the string one code unit at a time, and every
    code unit other than the six brackets is an invalid character. *)

Module Brackets.

Inductive error_kind :=
| UNEXPECTED_CLOSING
| MISMATCH
| UNCLOSED_OPENING
| INVALID_CHARACTER.

(** The object returned by [findFirstError]. *)
Record report := mk_report {
  valid : bool;
  error : option error_kind;
  position : Z;
  character : string;
}.

(** [opens.has(ch)] and [closes.has(ch)] *)
Definition opens (ch : ascii) : bool :=
  Ascii.eqb ch "(" || Ascii.eqb ch "[" || Ascii.eqb ch "{".
Definition closes (ch : ascii) : bool :=
  Ascii.eqb ch ")" || Ascii.eqb ch "]" || Ascii.eqb ch "}".

(** [match[ch]]; [None] stands for [undefined]. *)
Definition match_of (ch : ascii) : option ascii :=
  if Ascii.eqb ch ")" then Some "("%char
  else if Ascii.eqb ch "]" then Some "["%char
  else if Ascii.eqb ch "}" then Some "{"%char
  else None.

(** The loop of [findFirstError] over the characters from index [i] on,
    followed by the code after the loop. The stack is kept with its top
    first: [push] is a cons, [pop] drops the head, and [stack[0]], the
    entry pushed first, is the last element. *)
Fixpoint scan (s : string) (i : nat) (stack : list (ascii * nat)) : report :=
  match s with
  | EmptyString =>
      match last stack with
      | Some firstUnclosed =>
          mk_report false (Some UNCLOSED_OPENING)
            (Z.of_nat (snd firstUnclosed)) (String (fst firstUnclosed) "")
      | None => mk_report true None (-1) ""
      end
  | String ch rest =>
      if negb (opens ch) && negb (closes ch) then
        mk_report false (Some INVALID_CHARACTER) (Z.of_nat i) (String ch "")
      else if opens ch then scan rest (S i) ((ch, i) :: stack)
      else
        match stack with
        | [] => mk_report false (Some UNEXPECTED_CLOSING) (Z.of_nat i) (String ch "")
        | top :: below =>
            if negb (bool_decide (Some (fst top) = match_of ch)) then
              mk_report false (Some MISMATCH) (Z.of_nat i) (String ch "")
            else scan rest (S i) below
        end
  end.

Definition findFirstError (s : string) : report := scan s 0 [].

Definition isValid (s : string) : bool := valid (findFirstError s).

(** The closing bracket of an opening one. *)
Definition closing_of (o : ascii) : ascii :=
  if Ascii.eqb o "(" then ")"%char
  else if Ascii.eqb o "[" then "]"%char
  else "}"%char.

(** The balanced strings: the empty string, a balanced string inside a
    pair of matching brackets, and two balanced strings side by side. *)
Inductive balanced : string -> Prop :=
| balanced_empty : balanced ""
| balanced_wrap o w :
    opens o = true -> balanced w ->
    balanced (String o (w +:+ String (closing_of o) ""))
| balanced_concat u v : balanced u -> balanced v -> balanced (u +:+ v).

(** What remains to be read when the brackets [pending] (innermost first)
    are open: for each of them a balanced string and its closing bracket,
    and a balanced string at the end. *)
Fixpoint unwinds (pending : list ascii) (s : string) : Prop :=
  match pending with
  | [] => balanced s
  | o :: outer =>
      ∃ w r, s = w +:+ String (closing_of o) r ∧ balanced w ∧ unwinds outer r
  end.

(** The character that an error of each kind is reported at. *)
Definition reported_at (e : error_kind) (ch : ascii) : Prop :=
  match e with
  | INVALID_CHARACTER => opens ch = false ∧ closes ch = false
  | UNEXPECTED_CLOSING | MISMATCH => closes ch = true
  | UNCLOSED_OPENING => opens ch = true
  end.

(** A report that says "no error", or one that points at the character
    [ch] at index [p] of [full] for an error of kind [e]. *)
Definition accurate (full : string) (r : report) : Prop :=
  (valid r = true ∧ error r = None ∧ position r = -1 ∧ character r = "")
  ∨ (valid r = false
     ∧ ∃ e ch p, error r = Some e ∧ position r = Z.of_nat p
                 ∧ (p < String.length full)%nat
                 ∧ String.get p full = Some ch
                 ∧ character r = String ch "" ∧ reported_at e ch).

End Brackets.

(** * searchByTitle with the string built-ins as parameters

    [String.prototype.trim] and [String.prototype.toLowerCase] are not code
    of this repository. [trim] and [toLowerCase] above are their
    restrictions to ASCII; in this section they are arbitrary functions, so
    that what is proved of [searchByTitle_with] holds for the built-ins
    themselves on every string, titles with accented letters included. A
    string is held as the bytes of its UTF-8 form, as a string literal is:
    on well-formed strings, equality, emptiness and the substring relation
    [includes] are then those of the JavaScript strings. *)

Section builtins.
Variable trim_ : string -> string.
Variable toLowerCase_ : string -> string.

(** [includesCI] *)
Definition includesCI_with (haystack needle : string) : bool :=
  includes (toLowerCase_ haystack) (toLowerCase_ needle).

(** [TodoManager.searchByTitle] *)
Definition searchByTitle_with (query : jsval) : M loc :=
  match query with
  | VStr s =>
      if String.eqb (trim_ s) "" then throw InvalidInputError else
      let q := trim_ s in
      σ ← gets (λ σ, σ);
      new_Array (List.filter (λ t, includesCI_with (Task.title (task_at σ t)) q)
                   (store σ))
  | _ => throw InvalidInputError
  end.

End builtins.

(** [toLowerCase] on the UTF-8 form of a string whose letters lie in Basic
    Latin or in the Latin-1 Supplement: it folds [A-Z], and the two-byte
    letters U+00C0 to U+00DE (lead byte 195, second byte 128 to 158) other
    than the multiplication sign U+00D7, whose lower-case forms are 32 code
    points further on. *)
Fixpoint toLowerCase_latin1 (s : string) : string :=
  match s with
  | EmptyString => EmptyString
  | String c tl =>
      match tl with
      | String d rest =>
          if ((code_of c =? 195) && (128 <=? code_of d) && (code_of d <=? 158)
              && negb (code_of d =? 151))%N
          then String c (String (ascii_of_N (code_of d + 32))
                           (toLowerCase_latin1 rest))
          else String (lower_char c) (toLowerCase_latin1 tl)
      | EmptyString => String (lower_char c) EmptyString
      end
  end.

(** A store with one task whose title has accented capital letters. *)
Definition accented_state : state :=
  run [(CreateTask (demo_input "Criar AUTENTICAÇÃO" "PROJ"), 1);
       (CreateTask (demo_input "Logout" "PROJ"), 2)] new_TodoManager.

(** * Sanity checks of the embedding *)

Example validateProjectKey_proj : validateProjectKey (VStr " proj ") = inr "PROJ".
Proof. reflexivity. Qed.
Example validateProjectKey_short : validateProjectKey (VStr "P") = inl InvalidInputError.
Proof. reflexivity. Qed.
Example validateProjectKey_digit : validateProjectKey (VStr "1AB") = inl InvalidInputError.
Proof. reflexivity. Qed.
Example validateProjectKey_long : validateProjectKey (VStr "ABCDEFGHIJK") = inl InvalidInputError.
Proof. reflexivity. Qed.
Example next_twice :
  let '(c1, g1) := next (VStr "PROJ") new_CodeGenerator in
  let '(c2, g2) := next (VStr "proj") g1 in
  let '(c3, _) := next (VStr "FEAT") g2 in
  (c1, c2, c3) = (inr "PROJ-1", inr "PROJ-2", inr "FEAT-1").
Proof. vm_compute. reflexivity. Qed.

(** The end-to-end scenario of the specification. *)
Example scenario_create :
  let σ := run [(CreateTask (demo_input "Implementar LOGIN" "PROJ"), 10);
                (CreateTask (demo_input "Logout" "proj"), 11)] new_TodoManager in
  (Task.id (task_at σ 0), Task.code (task_at σ 0), Task.status (task_at σ 0))
  = (1, "PROJ-1", "todo")
  ∧ Task.code (task_at σ 1) = "PROJ-2".
Proof. vm_compute. done. Qed.

Example scenario_status :
  let σ := run [(CreateTask (demo_input "Implementar LOGIN" "PROJ"), 10);
                (CreateTask (demo_input "Logout" "proj"), 11);
                (ChangeStatus (VNum (Finite 2)) (VStr "done"), 12)] new_TodoManager in
  Task.completedAt (task_at σ 1) = Some 12
  ∧ Task.completedAt
      (task_at (snd (changeStatus (VNum (Finite 2)) (VStr "todo") 13 σ)) 1) = None.
Proof. vm_compute. done. Qed.

Example scenario_remove :
  let σ := run ((RemoveTask (VNum (Finite 1)), 14) :: nil)
             (run demo_calls new_TodoManager) in
  store σ = [1%nat]
  ∧ fst (getTask (VNum (Finite 1)) σ) = inl NotFoundError
  ∧ fst (changeStatus (VNum (Finite 2)) (VStr "paused") 15 σ) = inl InvalidInputError
  ∧ fst (createTask (VObj [("title", VStr "")]) 16 σ) = inl InvalidInputError.
Proof. vm_compute. done. Qed.

Example getTask_empty_store :
  getTask (VNum (Finite 999)) new_TodoManager = (inl NotFoundError, new_TodoManager).
Proof. reflexivity. Qed.

(** * Strings: facts about the character classes and [trim] *)

Section chars.
Implicit Types c : ascii.

Lemma key_char_not_space c : is_key_char c = true -> is_space c = false.
Proof. by destruct c as [[] [] [] [] [] [] [] []]. Qed.

Lemma key_char_not_lower c : is_key_char c = true -> is_lower c = false.
Proof. by destruct c as [[] [] [] [] [] [] [] []]. Qed.

Lemma key_char_not_dash c : is_key_char c = true -> c ≠ "-"%char.
Proof. by intros H ->. Qed.

Lemma upper_is_key_char c : is_upper c = true -> is_key_char c = true.
Proof. unfold is_key_char. by intros ->. Qed.

Lemma upper_char_key c : is_key_char c = true -> upper_char c = c.
Proof. intros H. unfold upper_char. by rewrite key_char_not_lower. Qed.
End chars.

Lemma toUpperCase_key s : all_chars is_key_char s = true -> toUpperCase s = s.
Proof.
  unfold toUpperCase.
  induction s as [|c s IH]; cbn [map_string all_chars]; [done|].
  intros [Hc Hs]%andb_prop. by rewrite (upper_char_key _ Hc), (IH Hs).
Qed.

Lemma all_space_key s : all_chars is_key_char s = true -> s ≠ "" -> all_space s = false.
Proof.
  destruct s as [|c s]; [done|]; simpl.
  intros [Hc _]%andb_prop _. by rewrite (key_char_not_space _ Hc).
Qed.

Lemma trimStart_key s : all_chars is_key_char s = true -> trimStart s = s.
Proof.
  destruct s as [|c s]; simpl; [done|].
  intros [Hc _]%andb_prop. by rewrite (key_char_not_space _ Hc).
Qed.

Lemma trimEnd_key s : all_chars is_key_char s = true -> trimEnd s = s.
Proof.
  induction s as [|c s IH]; [done|].
  intros H. pose proof H as [Hc Hs]%andb_prop.
  cbn [trimEnd]. rewrite (all_space_key _ H) by done. by rewrite (IH Hs).
Qed.

Lemma trim_key s : all_chars is_key_char s = true -> trim s = s.
Proof. intros H. unfold trim. by rewrite trimStart_key, trimEnd_key. Qed.

Lemma test_key_chars s : test_key s = true -> all_chars is_key_char s = true.
Proof.
  destruct s as [|c s]; [done|]. unfold test_key.
  rewrite !andb_true_iff. intros [[[Hc Hs] _] _]. simpl.
  by rewrite (upper_is_key_char _ Hc), Hs.
Qed.

Lemma trimStart_clean s : starts_clean (trimStart s).
Proof.
  induction s as [|c s IH]; simpl; [done|].
  destruct (is_space c) eqn:Hc; [done|]. simpl. done.
Qed.

Lemma trimStart_id s : starts_clean s -> trimStart s = s.
Proof. destruct s as [|c s]; simpl; [done|]. by intros ->. Qed.

Lemma all_space_trimEnd s : all_space (trimEnd s) = true -> all_space s = true.
Proof.
  induction s as [|c s IH]; [done|]. cbn [trimEnd].
  destruct (all_space (String c s)) eqn:Hall; [done|].
  simpl. intros [Hc Hs]%andb_prop. simpl in Hall.
  by rewrite Hc, (IH Hs) in Hall.
Qed.

Lemma trimEnd_idem s : trimEnd (trimEnd s) = trimEnd s.
Proof.
  induction s as [|c s IH]; [done|]. cbn [trimEnd].
  destruct (all_space (String c s)) eqn:Hall; [done|].
  cbn [trimEnd]. rewrite IH.
  destruct (all_space (String c (trimEnd s))) eqn:Hall'; [|done].
  simpl in Hall, Hall'. apply andb_prop in Hall' as [Hc Hs].
  by rewrite Hc, (all_space_trimEnd _ Hs) in Hall.
Qed.

Lemma trimEnd_clean s : starts_clean s -> starts_clean (trimEnd s).
Proof.
  destruct s as [|c s]; [done|]. cbn [trimEnd].
  by destruct (all_space (String c s)).
Qed.

Lemma trim_idem s : trim (trim s) = trim s.
Proof.
  unfold trim.
  rewrite (trimStart_id (trimEnd _)) by apply trimEnd_clean, trimStart_clean.
  apply trimEnd_idem.
Qed.

(** A successfully validated key is its own normal form, so validating it
    again (as [CodeGenerator.next] does inside [createTask]) succeeds. *)
Lemma validateProjectKey_chars v key :
  validateProjectKey v = inr key -> test_key key = true.
Proof.
  destruct v; try done. simpl.
  destruct (test_key _) eqn:Hk; [|done]. by intros [= <-].
Qed.

Lemma validateProjectKey_error v e :
  validateProjectKey v = inl e -> e = InvalidInputError.
Proof.
  destruct v; simpl; try by intros [= <-].
  destruct (test_key _); [done|]. by intros [= <-].
Qed.

Lemma validateProjectKey_idem v key :
  validateProjectKey v = inr key -> validateProjectKey (VStr key) = inr key.
Proof.
  intros Hk%validateProjectKey_chars. simpl.
  pose proof (test_key_chars _ Hk) as Hc.
  by rewrite (trim_key _ Hc), (toUpperCase_key _ Hc), Hk.
Qed.

(** * Codes *)

(** The key of a code ends at the first dash. *)
Lemma key_dash_inj k1 k2 x y :
  all_chars is_key_char k1 = true -> all_chars is_key_char k2 = true ->
  k1 +:+ "-" +:+ x = k2 +:+ "-" +:+ y -> k1 = k2 ∧ x = y.
Proof.
  revert k2. induction k1 as [|c k1 IH]; intros [|d k2]; cbn [all_chars].
  - intros _ _ Heq. injection Heq as Heq. change (x = y) in Heq. done.
  - intros _ [Hd _]%andb_prop Heq. injection Heq as Heq _.
    by apply key_char_not_dash in Hd.
  - intros [Hc _]%andb_prop _ Heq. injection Heq as Heq _.
    by apply key_char_not_dash in Hc.
  - intros [_ H1]%andb_prop [_ H2]%andb_prop Heq. injection Heq as -> Heq.
    destruct (IH _ H1 H2 Heq) as [-> ->]. done.
Qed.

Lemma format_code_inj k1 k2 n1 n2 :
  test_key k1 = true -> test_key k2 = true ->
  format_code k1 n1 = format_code k2 n2 -> k1 = k2 ∧ n1 = n2.
Proof.
  intros H1%test_key_chars H2%test_key_chars Heq.
  destruct (key_dash_inj _ _ _ _ H1 H2 Heq) as [-> Hp].
  split; [done|]. by apply (inj pretty).
Qed.

(** * CodeGenerator *)

Lemma next_valid v key g :
  validateProjectKey v = inr key ->
  next v g = (inr (format_code key (counter g key + 1)),
              {| counters := <[key := counter g key + 1]> (counters g) |}).
Proof. intros H. unfold next. by rewrite H. Qed.

Lemma next_invalid v e g : validateProjectKey v = inl e -> next v g = (inl e, g).
Proof. intros H. unfold next. by rewrite H. Qed.

Lemma counter_next_same v key g :
  validateProjectKey v = inr key -> counter (snd (next v g)) key = counter g key + 1.
Proof.
  intros H. rewrite (next_valid _ _ _ H). unfold counter at 1. simpl.
  by rewrite lookup_insert_eq.
Qed.

Lemma counter_next_other v key g :
  validateProjectKey v ≠ inr key -> counter (snd (next v g)) key = counter g key.
Proof.
  intros H. unfold next, counter.
  destruct (validateProjectKey v) as [e|k]; simpl; [done|].
  rewrite lookup_insert_ne; [done|]. congruence.
Qed.

(** After any history of calls, the counter of a key is the number of
    calls made for it. *)
Lemma counter_next_all args g key :
  counter (next_all args g) key = counter g key + calls_for key args.
Proof.
  revert g. induction args as [|a args IH]; intros g; simpl; [lia|].
  rewrite IH. case_decide as Ha.
  - rewrite (counter_next_same _ _ _ Ha). lia.
  - rewrite (counter_next_other _ _ _ Ha). lia.
Qed.

(** C4. A generator starts with every counter at 0. After any history
    [args] of [next] calls, a call for a valid project key returns
    ["<KEY>-<k>"] where [k] is one more than the number of earlier calls
    for the same normalized key; it increments that counter by one and
    leaves the counter of every other key alone; and codes of two distinct
    valid keys are never equal. *)
Theorem next_kth_code (args : list jsval) (projectKey : jsval) (key : string) :
  validateProjectKey projectKey = inr key ->
  let g := next_all args new_CodeGenerator in
  counter new_CodeGenerator key = 0
  ∧ fst (next projectKey g) = inr (format_code key (calls_for key args + 1))
  ∧ counter (snd (next projectKey g)) key = counter g key + 1
  ∧ (∀ key', key' ≠ key -> counter (snd (next projectKey g)) key' = counter g key')
  ∧ (∀ key' n n', test_key key' = true -> key' ≠ key ->
       format_code key n ≠ format_code key' n').
Proof.
  intros Hk g. split; [done|]. split; [|split; [|split]].
  - rewrite (next_valid _ _ _ Hk). simpl. subst g.
    by rewrite counter_next_all.
  - by apply counter_next_same.
  - intros key' Hne. apply counter_next_other. congruence.
  - intros key' n n' Hk' Hne Heq.
    apply validateProjectKey_chars in Hk.
    destruct (format_code_inj _ _ _ _ Hk Hk' Heq). congruence.
Qed.

Lemma next_kth_code_witness :
  validateProjectKey (VStr " proj") = inr "PROJ"
  ∧ fst (next (VStr " proj") (next_all [VStr "PROJ"; VStr "FEAT"] new_CodeGenerator))
    = inr "PROJ-2".
Proof.
  split; [reflexivity|].
  apply (next_kth_code [VStr "PROJ"; VStr "FEAT"] (VStr " proj") "PROJ").
  reflexivity.
Defined.

(** * The operations of TodoManager, one by one *)

Lemma elem_of_find {A} (p : A -> bool) l x :
  List.find p l = Some x -> x ∈ l ∧ p x = true.
Proof. intros [Hin Hp]%find_some. by rewrite list_elem_of_In. Qed.

Lemma findIndex_None {A} (p : A -> bool) l :
  findIndex p l = None ↔ List.find p l = None.
Proof.
  induction l as [|x l IH]; simpl; [done|].
  destruct (p x); [done|].
  destruct (findIndex p l); simpl; [|tauto].
  split; [done|]. intros H. apply IH in H. done.
Qed.

(** ** getTask *)

Lemma getTask_state id σ : snd (getTask id σ) = σ.
Proof.
  unfold getTask. destruct (negb _); [done|]. run_M.
  by destruct (List.find _ _).
Qed.

Lemma getTask_found id σ t σ' :
  getTask id σ = (inr t, σ') ->
  σ' = σ ∧ t ∈ store σ ∧ id_seq (Task.id (task_at σ t)) id = true.
Proof.
  unfold getTask. destruct (negb _); [done|]. run_M.
  destruct (List.find _ _) as [t'|] eqn:Hfind; [|done].
  intros [= <- <-]. by apply elem_of_find in Hfind as [? ?].
Qed.

Lemma getTask_not_number id σ :
  typeof id ≠ "number" -> getTask id σ = (inl InvalidInputError, σ).
Proof.
  intros H. unfold getTask.
  destruct (String.eqb_spec (typeof id) "number"); done.
Qed.

Lemma getTask_missing (n : number) σ :
  Forall (λ t, id_seq (Task.id (task_at σ t)) (VNum n) = false) (store σ) ->
  getTask (VNum n) σ = (inl NotFoundError, σ).
Proof.
  intros Hall. unfold getTask. run_M.
  destruct (List.find _ _) as [t|] eqn:Hfind; [|done].
  apply elem_of_find in Hfind as [Hin Hp].
  rewrite Forall_forall in Hall. by rewrite (Hall _ Hin) in Hp.
Qed.

(** ** createTask *)

Lemma has_elem set v s : has set v = Some s -> v = VStr s ∧ s ∈ set.
Proof.
  destruct v; try done. simpl. case_bool_decide; [|done]. by intros [= <-].
Qed.

Lemma createTask_cases input now σ :
  createTask input now σ = (inl InvalidInputError, σ)
  ∨ ∃ title priority key,
      title ≠ "" ∧ trim title = title ∧ priority ∈ VALID_PRIORITY
      ∧ test_key key = true
      ∧ createTask input now σ
        = (inr (length (objs σ)),
           created σ title (coalesce (prop input "description") (VStr ""))
             priority key now).
Proof.
  unfold createTask.
  destruct (negb (truthy input) || _); [by left|].
  set (title := match prop input "title" with VStr s => trim s | _ => "" end).
  destruct (String.eqb_spec title "") as [|Htitle]; [by left|].
  destruct (has VALID_PRIORITY _) as [priority|] eqn:Hp; [|by left].
  apply has_elem in Hp as [_ Hp].
  unfold mbind at 1, M_bind at 1.
  destruct (validateProjectKey (coalesce _ _)) as [e|key] eqn:Hkey.
  { left. by rewrite (validateProjectKey_error _ _ Hkey). }
  right. exists title, priority, key.
  assert (trim title = title) as Htrim.
  { subst title. destruct (prop input "title"); try done. apply trim_idem. }
  pose proof (validateProjectKey_chars _ _ Hkey) as Hk.
  split_and!; try done.
  unfold lift, mret, M_ret. cbv beta iota.
  unfold post_incr_nextId, codes_next, new_Task, tasks_push. run_M.
  rewrite (next_valid _ _ _ (validateProjectKey_idem _ _ Hkey)).
  reflexivity.
Qed.

(** ** applyChanges *)

Lemma set_objs_compose f g σ :
  set_objs f (set_objs g σ) = set_objs (f ∘ g) σ.
Proof. by destruct σ. Qed.

Lemma alter_twice {A} (f g : A -> A) r (l : list A) :
  alter f r (alter g r l) = alter (f ∘ g) r l.
Proof. apply list_alter_alter_eq. Qed.

Lemma set_objs_alter_id r σ : set_objs (alter (λ x, x) r) σ = σ.
Proof. destruct σ. unfold set_objs; simpl. f_equal. by apply list_alter_id. Qed.

Lemma set_objs_alter_alter f g r σ :
  set_objs (alter f r) (set_objs (alter g r) σ) = set_objs (alter (f ∘ g) r) σ.
Proof. rewrite set_objs_compose. destruct σ; unfold set_objs; simpl.
  f_equal. apply alter_twice. Qed.

Lemma task_at_alter f r σ :
  (r < length (objs σ))%nat ->
  task_at (set_objs (alter f r) σ) r = f (task_at σ r).
Proof.
  intros Hr. unfold task_at; simpl.
  by rewrite list_lookup_total_alter_eq.
Qed.

Lemma task_at_alter_ne f r r' σ :
  r ≠ r' -> task_at (set_objs (alter f r) σ) r' = task_at σ r'.
Proof.
  intros Hr. unfold task_at; simpl.
  by rewrite list_lookup_total_alter_ne.
Qed.

(** [applyChanges] on a live task is the in-place application of
    [field_changes]. *)
Lemma applyChanges_eq task changes now σ :
  (task < length (objs σ))%nat ->
  applyChanges task changes now σ
  = (fst (field_changes changes now),
     set_objs (alter (snd (field_changes changes now)) task) σ).
Proof.
  intros Hr. unfold applyChanges, field_changes.
  unfold change_title, change_description, change_priority, change_status.
  unfold assign. run_M.
  repeat match goal with
  | |- context [negb (nullish ?v)] => destruct (nullish v); simpl
  | |- context [match prop ?c ?k with _ => _ end] => destruct (prop c k); simpl
  | |- context [String.eqb (trim ?s) ""] => destruct (String.eqb (trim s) ""); simpl
  | |- context [has ?set ?v] => destruct (has set v); simpl
  end;
  rewrite ?set_objs_alter_alter, ?set_objs_alter_id;
  rewrite ?task_at_alter by done; reflexivity.
Qed.

Lemma preserving_id : preserving (λ x, x).
Proof. by intros x. Qed.

Lemma preserving_compose f g : preserving f -> preserving g -> preserving (f ∘ g).
Proof.
  intros Hf Hg x. destruct (Hf (g x)) as (Hi & Hc & Hw), (Hg x) as (Hi' & Hc' & Hw').
  simpl. split_and!; [congruence..|auto].
Qed.

Lemma preserving_title changes f : change_title changes = inr f -> preserving f.
Proof.
  unfold change_title. destruct (negb _); [|intros [= <-]; apply preserving_id].
  destruct (prop changes "title") as [| | | |s|]; try done.
  destruct (String.eqb_spec (trim s) ""); [done|]. intros [= <-] x.
  split_and!; [done..|]. intros []. split; try done. simpl.
  split; [done|apply trim_idem].
Qed.

Lemma preserving_description changes f :
  change_description changes = inr f -> preserving f.
Proof.
  unfold change_description. destruct (negb _); [|intros [= <-]; apply preserving_id].
  destruct (prop changes "description"); try done. intros [= <-] x.
  split_and!; [done..|]. by intros [].
Qed.

Lemma preserving_priority changes f :
  change_priority changes = inr f -> preserving f.
Proof.
  unfold change_priority. destruct (negb _); [|intros [= <-]; apply preserving_id].
  destruct (has _ _) as [p|] eqn:Hp; [|done]. apply has_elem in Hp as [_ Hp].
  intros [= <-] x. split_and!; [done..|]. by intros [].
Qed.

Lemma preserving_status changes now f :
  change_status changes now = inr f -> preserving f.
Proof.
  unfold change_status. destruct (negb _); [|intros [= <-]; apply preserving_id].
  destruct (has _ _) as [s|] eqn:Hs; [|done]. apply has_elem in Hs as [_ Hs].
  intros [= <-] x. split_and!; [done..|]. intros []. split; try done.
  unfold coupled; simpl.
  destruct (String.eqb_spec s STATUSES.DONE); split; try done;
    by intros [? [=]].
Qed.

Lemma preserving_updatedAt now : preserving (Task.set_updatedAt now).
Proof. intros x. split_and!; [done..|]. by intros []. Qed.

Lemma preserving_field_changes changes now :
  preserving (snd (field_changes changes now)).
Proof.
  unfold field_changes.
  destruct (change_title _) as [|f1] eqn:H1; [apply preserving_id|].
  apply preserving_title in H1.
  destruct (change_description _) as [|f2] eqn:H2; [done|].
  apply preserving_description in H2.
  destruct (change_priority _) as [|f3] eqn:H3; [by apply preserving_compose|].
  apply preserving_priority in H3.
  destruct (change_status _ _) as [|f4] eqn:H4; simpl.
  { auto using preserving_compose. }
  apply preserving_status in H4.
  auto using preserving_compose, preserving_updatedAt.
Qed.

(** ** Sub-sequences *)

Lemma filter_sublist {A} (p : A -> bool) l : List.filter p l `sublist_of` l.
Proof.
  induction l as [|x l IH]; simpl; [constructor|].
  destruct (p x); by constructor.
Qed.

Lemma sublist_sorted {A} (R : relation A) l1 l2 :
  l1 `sublist_of` l2 -> StronglySorted R l2 -> StronglySorted R l1.
Proof.
  induction 1 as [|x l1 l2 Hsub IH|x l1 l2 Hsub IH]; [done|..];
    rewrite ?StronglySorted_cons; intros [Hall Hs].
  - split; [|by apply IH]. rewrite Forall_forall in *.
    intros y Hy. apply Hall. by apply (sublist_subseteq _ _ Hsub).
  - by apply IH.
Qed.

Lemma sublist_all {A} (P : A -> Prop) l1 l2 :
  l1 `sublist_of` l2 -> Forall P l2 -> Forall P l1.
Proof.
  intros Hsub. rewrite !Forall_forall. intros H x Hx.
  apply H. by apply (sublist_subseteq _ _ Hsub).
Qed.

(** ** Every call takes one step *)

Lemma store_valid σ t : heap_ok σ -> t ∈ store σ -> (t < length (objs σ))%nat.
Proof.
  intros Hok Hin. pose proof (ok_store _ Hok) as Hs.
  pose proof (ok_refs _ Hok (_tasks σ) (store σ)) as Hrefs.
  rewrite Forall_forall in Hrefs. apply Hrefs; [|done].
  unfold store, array_at. by apply list_lookup_lookup_total_lt.
Qed.

Lemma applyChanges_quiet task changes now σ :
  heap_ok σ -> task ∈ store σ -> quiet σ (snd (applyChanges task changes now σ)).
Proof.
  intros Hok Hin. rewrite applyChanges_eq by by apply store_valid.
  apply quiet_mutate; [done|]. apply preserving_field_changes.
Qed.

Lemma exec_quiet c now σ :
  heap_ok σ -> is_create c = false -> quiet σ (snd (exec c now σ)).
Proof.
  intros Hok Hc. destruct c; unfold exec; try done.
  - (* listTasks *)
    unfold listTasks. run_M. by apply quiet_array.
  - (* getTask *)
    unfold fmap, M_fmap. pose proof (getTask_state id σ) as Hs.
    destruct (getTask id σ) as [[e|t] σ']; simpl in *; subst; apply quiet_same.
  - (* findByCode *)
    unfold findByCode. destruct code as [| | | |c|]; try apply quiet_same.
    destruct (negb _); [apply quiet_same|]. run_M.
    destruct (List.find _ _); apply quiet_same.
  - (* updateTask *)
    unfold updateTask, fmap, M_fmap, mbind at 1, M_bind at 1.
    destruct (getTask id σ) as [[e|t] σ'] eqn:Hget.
    { pose proof (getTask_state id σ) as Hs. rewrite Hget in Hs.
      simpl in *. subst. apply quiet_same. }
    apply getTask_found in Hget as (-> & Hin & _).
    destruct (negb (truthy changes) || _); [apply quiet_same|].
    unfold mbind, M_bind.
    pose proof (applyChanges_quiet t
      (VObj [("title", prop changes "title");
             ("description", prop changes "description");
             ("priority", prop changes "priority")]) now σ Hok Hin) as Hstep.
    by destruct (applyChanges _ _ _ _) as [[e|[]] σ'].
  - (* changeStatus *)
    unfold changeStatus, fmap, M_fmap, mbind at 1, M_bind at 1.
    destruct (getTask id σ) as [[e|t] σ'] eqn:Hget.
    { pose proof (getTask_state id σ) as Hs. rewrite Hget in Hs.
      simpl in *. subst. apply quiet_same. }
    apply getTask_found in Hget as (-> & Hin & _).
    unfold mbind, M_bind.
    pose proof (applyChanges_quiet t (VObj [("status", newStatus)]) now σ Hok Hin)
      as Hstep.
    by destruct (applyChanges _ _ _ _) as [[e|[]] σ'].
  - (* removeTask *)
    unfold removeTask. destruct (negb _); [apply quiet_same|].
    unfold tasks_splice. run_M.
    destruct (findIndex _ _) as [idx|]; [apply quiet_remove|apply quiet_same].
  - (* filterByStatus *)
    unfold filterByStatus. destruct (has _ _); [|apply quiet_same].
    unfold new_Array. run_M. apply quiet_array, filter_sublist.
  - (* filterByPriority *)
    unfold filterByPriority. destruct (has _ _); [|apply quiet_same].
    unfold new_Array. run_M. apply quiet_array, filter_sublist.
  - (* searchByTitle *)
    unfold searchByTitle. destruct query as [| | | |s|]; try apply quiet_same.
    destruct (String.eqb _ _); [apply quiet_same|].
    unfold new_Array. run_M. apply quiet_array, filter_sublist.
  - (* countByStatus *)
    apply quiet_same.
Qed.

Lemma exec_step c now σ : heap_ok σ -> step σ (snd (exec c now σ)).
Proof.
  intros Hok. destruct (is_create c) eqn:Hc; [|by apply step_quiet, exec_quiet].
  destruct c; try done. unfold exec, fmap, M_fmap.
  destruct (createTask_cases input now σ)
    as [->|(title & priority & key & ? & ? & ? & ? & ->)].
  - apply step_quiet, quiet_same.
  - by apply step_create.
Qed.

(** A call that creates no task leaves the counters and the number of
    Task objects alone. *)
Lemma quiet_frame σ σ' :
  quiet σ σ' ->
  _nextId σ' = _nextId σ ∧ _codes σ' = _codes σ ∧ _tasks σ' = _tasks σ
  ∧ length (objs σ') = length (objs σ).
Proof. destruct 1; simpl; rewrite ?length_alter; done. Qed.

(** * Well-formedness of the reachable states *)

Lemma counter_nonneg σ key : heap_ok σ -> 0 ≤ counter (_codes σ) key.
Proof.
  intros Hok. unfold counter.
  destruct (counters (_codes σ) !! key) as [n|] eqn:Hn; simpl; [|lia].
  by apply (ok_counters _ Hok key n).
Qed.

Lemma store_lookup σ : heap_ok σ -> arrs σ !! _tasks σ = Some (store σ).
Proof.
  intros Hok. unfold store, array_at.
  apply list_lookup_lookup_total_lt, (ok_store _ Hok).
Qed.

Lemma heap_ok_new : heap_ok new_TodoManager.
Proof.
  split; simpl; try done.
  - lia.
  - intros [|a] l Ha; simplify_eq/=. constructor.
  - intros [|a] l Ha; simplify_eq/=. constructor.
Qed.

Lemma heap_ok_array σ l :
  heap_ok σ -> l `sublist_of` store σ -> heap_ok (set_arrs (λ h, h ++ [l]) σ).
Proof.
  intros Hok Hsub. pose proof (store_lookup _ Hok) as Hst. open_ok Hok.
  split; simpl; try done.
  - rewrite length_app; simpl. lia.
  - intros a l' [Ha|[_ Ha]]%lookup_app_Some; [by apply (Hrefs a)|].
    apply list_lookup_singleton_Some in Ha as [_ <-].
    eapply sublist_all; [done|]. by apply (Hrefs (_tasks σ)).
  - intros a l' [Ha|[_ Ha]]%lookup_app_Some; [by apply (Hsorted a)|].
    apply list_lookup_singleton_Some in Ha as [_ <-].
    eapply sublist_sorted; [done|]. by apply (Hsorted (_tasks σ)).
Qed.

Lemma heap_ok_remove σ idx :
  heap_ok σ -> heap_ok (set_arrs (alter (delete idx) (_tasks σ)) σ).
Proof.
  intros Hok. open_ok Hok. split; simpl; try done.
  - by rewrite length_alter.
  - intros a l. rewrite list_lookup_alter. case_decide as Ha; [|apply Hrefs].
    subst a. rewrite (store_lookup _ Hok). simpl.
    intros [= <-]. eapply sublist_all; [apply sublist_delete|].
    apply (Hrefs (_tasks σ)), (store_lookup _ Hok).
  - intros a l. rewrite list_lookup_alter. case_decide as Ha; [|apply Hsorted].
    subst a. rewrite (store_lookup _ Hok). simpl.
    intros [= <-]. eapply sublist_sorted; [apply sublist_delete|].
    apply (Hsorted (_tasks σ)), (store_lookup _ Hok).
Qed.

Lemma heap_ok_mutate σ r f :
  heap_ok σ -> preserving f -> heap_ok (set_objs (alter f r) σ).
Proof.
  intros Hok Hf. open_ok Hok. split; simpl; try done.
  - intros a l Ha. rewrite length_alter. by apply (Hrefs a).
  - apply Forall_alter; [done|]. intros x _. apply Hf.
  - intros r' x. rewrite list_lookup_alter. case_decide as Hr; [|apply Hids].
    subst r'. destruct (objs σ !! r) as [y|] eqn:Hy; simpl; [|done].
    intros [= <-]. destruct (Hf y) as (-> & _). by apply Hids.
  - by rewrite length_alter.
Qed.

Lemma heap_ok_create σ title description priority key now :
  heap_ok σ -> title ≠ "" -> trim title = title -> priority ∈ VALID_PRIORITY ->
  test_key key = true ->
  heap_ok (created σ title description priority key now).
Proof.
  intros Hok Ht Htrim Hp Hk. pose proof (store_lookup _ Hok) as Hst.
  pose proof (counter_nonneg σ key Hok) as Hc. open_ok Hok.
  split; simpl.
  - by rewrite length_alter.
  - intros a l. rewrite length_app, list_lookup_alter. simpl.
    case_decide as Ha.
    + subst a. rewrite Hst. intros [= <-]. apply Forall_app. split.
      * eapply Forall_impl; [by apply (Hrefs (_tasks σ))|].
        intros; simpl in *; lia.
      * repeat constructor. lia.
    + intros Hl. eapply Forall_impl; [by apply (Hrefs a)|].
      intros; simpl in *; lia.
  - intros a l. rewrite list_lookup_alter. case_decide as Ha; [|apply Hsorted].
    subst a. rewrite Hst. intros [= <-]. apply StronglySorted_app.
    split_and!; [|by apply (Hsorted (_tasks σ))|repeat constructor].
    intros x y Hx ->%list_elem_of_singleton.
    by apply store_valid.
  - apply Forall_app. split; [done|]. constructor; [|constructor].
    split; simpl; try done.
    + constructor.
    + exists key, (counter (_codes σ) key + 1). split_and!; [done|lia|done].
    + unfold coupled; simpl. split; [by intros [? [=]]|done].
  - intros r x [Hr|[Hr Hx]]%lookup_app_Some; [by apply Hids|].
    apply list_lookup_singleton_Some in Hx as [Hx <-]. simpl. lia.
  - rewrite length_app; simpl. lia.
  - apply map_Forall_insert_2; [lia|done].
Qed.

Lemma heap_ok_step σ σ' : heap_ok σ -> step σ σ' -> heap_ok σ'.
Proof.
  intros Hok [? [] |];
    eauto using heap_ok_array, heap_ok_remove, heap_ok_mutate, heap_ok_create.
Qed.

Lemma reachable_ok σ : reachable σ -> heap_ok σ.
Proof.
  induction 1 as [|σ c now _ IH]; [apply heap_ok_new|].
  eapply heap_ok_step; [done|]. by apply exec_step.
Qed.

Lemma reachable_run cs σ : reachable σ -> reachable (run cs σ).
Proof.
  revert σ. induction cs as [|[c now] cs IH]; intros σ Hr; simpl; [done|].
  apply IH. by constructor.
Qed.


(** * Tasks of the store *)

Lemma task_at_lookup σ t : (t < length (objs σ))%nat -> objs σ !! t = Some (task_at σ t).
Proof. intros Ht. by apply list_lookup_lookup_total_lt. Qed.

Lemma store_task_wf σ t : heap_ok σ -> t ∈ store σ -> wf_task (task_at σ t).
Proof.
  intros Hok Hin. pose proof (store_valid _ _ Hok Hin) as Ht.
  pose proof (ok_tasks _ Hok) as Hall. rewrite Forall_forall in Hall.
  apply Hall. eapply list_elem_of_lookup_2, task_at_lookup, Ht.
Qed.

Lemma created_task σ title description priority key now :
  task_at (created σ title description priority key now) (length (objs σ))
  = Task.mk (_nextId σ) (format_code key (counter (_codes σ) key + 1))
      title description STATUSES.TODO priority now now None.
Proof. unfold task_at; simpl. by apply list_lookup_total_middle. Qed.

Lemma created_store σ title description priority key now :
  heap_ok σ ->
  store (created σ title description priority key now)
  = store σ ++ [length (objs σ)].
Proof.
  intros Hok. unfold store at 1, array_at; simpl.
  rewrite list_lookup_total_alter_eq by apply Hok. done.
Qed.

(** A successful [changeStatus] with a string argument. *)
Lemma changeStatus_string id s now σ t σ' :
  heap_ok σ ->
  changeStatus id (VStr s) now σ = (inr t, σ') ->
  t ∈ store σ ∧ s ∈ VALID_STATUS
  ∧ σ' = set_objs (alter (λ x, Task.set_updatedAt now
                            (Task.set_completedAt
                               (if String.eqb s STATUSES.DONE then Some now else None)
                               (Task.set_status s x))) t) σ.
Proof.
  intros Hok. unfold changeStatus, mbind at 1, M_bind at 1.
  destruct (getTask id σ) as [[e|t'] σ0] eqn:Hget; [done|].
  apply getTask_found in Hget as (-> & Hin & _).
  unfold mbind, M_bind. rewrite applyChanges_eq by by apply store_valid.
  unfold field_changes, change_title, change_description, change_priority,
    change_status; simpl.
  destruct (bool_decide (s ∈ VALID_STATUS)) eqn:Hs; simpl; [|done].
  apply bool_decide_eq_true in Hs. unfold mret, M_ret. by intros [= <- <-].
Qed.

(** C1. In every reachable state the store's array and the tasks it
    refers to exist, and each task of the store has a non-null
    [completedAt] if and only if its status is [done]. A task returned by
    [createTask] is in the store with status [todo] and [completedAt] null;
    a successful [changeStatus] to the status [s] leaves the task with
    status [s] and with [completedAt] set to the clock reading when [s] is
    [done] and null otherwise, so that a transition back to [todo] or
    [in_progress] clears it. *)
Theorem completedAt_iff_done (σ : state) :
  reachable σ ->
  arrs σ !! _tasks σ = Some (store σ)
  ∧ Forall (λ t, ∃ x, objs σ !! t = Some x
                      ∧ (is_Some (Task.completedAt x)
                         ↔ Task.status x = STATUSES.DONE)) (store σ)
  ∧ (∀ input now t σ',
       createTask input now σ = (inr t, σ') ->
       t ∈ store σ'
       ∧ Task.status (task_at σ' t) = STATUSES.TODO
       ∧ Task.completedAt (task_at σ' t) = None)
  ∧ (∀ id s now t σ',
       changeStatus id (VStr s) now σ = (inr t, σ') ->
       t ∈ store σ'
       ∧ Task.status (task_at σ' t) = s
       ∧ Task.completedAt (task_at σ' t)
         = if String.eqb s STATUSES.DONE then Some now else None).
Proof.
  intros Hok%reachable_ok. split_and!.
  - by apply store_lookup.
  - rewrite Forall_forall. intros t Ht. exists (task_at σ t). split.
    + by apply task_at_lookup, store_valid.
    + apply (wf_coupled _ (store_task_wf _ _ Hok Ht)).
  - intros input now t σ' Hc.
    destruct (createTask_cases input now σ)
      as [Hf|(title & priority & key & _ & _ & _ & _ & Hs)]; [congruence|].
    rewrite Hs in Hc. injection Hc as <- <-.
    rewrite created_task, created_store by done. split; [|done].
    apply elem_of_app. right. constructor.
  - intros id s now t σ' Hc.
    apply changeStatus_string in Hc as (Hin & _ & ->); [|done].
    rewrite task_at_alter by by apply store_valid. done.
Qed.

Lemma completedAt_iff_done_witness :
  Forall (λ t, ∃ x, objs (run demo_calls new_TodoManager) !! t = Some x
                    ∧ (is_Some (Task.completedAt x)
                       ↔ Task.status x = STATUSES.DONE))
    (store (run demo_calls new_TodoManager)).
Proof.
  apply (completedAt_iff_done (run demo_calls new_TodoManager)).
  apply reachable_run, reachable_new.
Defined.

Lemma test_key_validate key :
  test_key key = true -> validateProjectKey (VStr key) = inr key.
Proof.
  intros Hk. simpl. pose proof (test_key_chars _ Hk) as Hc.
  by rewrite (trim_key _ Hc), (toUpperCase_key _ Hc), Hk.
Qed.

(** C9. In every reachable state, each task of the store exists and has a
    non-empty title that is its own trimmed form, a status among [todo],
    [in_progress] and [done], a priority among [low], [medium] and [high],
    and a code ["<KEY>-<N>"] where [KEY] is a project key in normal form
    and [N] is a positive integer. *)
Theorem stored_tasks_well_formed (σ : state) :
  reachable σ ->
  Forall (λ t, ∃ x,
    objs σ !! t = Some x
    ∧ Task.title x ≠ "" ∧ trim (Task.title x) = Task.title x
    ∧ Task.status x ∈ VALID_STATUS
    ∧ Task.priority x ∈ VALID_PRIORITY
    ∧ ∃ key n, validateProjectKey (VStr key) = inr key ∧ 1 ≤ n
               ∧ Task.code x = key +:+ "-" +:+ pretty n) (store σ).
Proof.
  intros Hok%reachable_ok. rewrite Forall_forall. intros t Ht.
  exists (task_at σ t).
  destruct (store_task_wf _ _ Hok Ht) as [[? ?] ? ? (key & n & Hk & Hn & Hc) _].
  split_and!; try done.
  - by apply task_at_lookup, store_valid.
  - exists key, n. by rewrite (test_key_validate _ Hk).
Qed.

Lemma stored_tasks_well_formed_witness :
  Forall (λ t, ∃ x,
    objs (run demo_calls new_TodoManager) !! t = Some x
    ∧ Task.title x ≠ "" ∧ trim (Task.title x) = Task.title x
    ∧ Task.status x ∈ VALID_STATUS
    ∧ Task.priority x ∈ VALID_PRIORITY
    ∧ ∃ key n, validateProjectKey (VStr key) = inr key ∧ 1 ≤ n
               ∧ Task.code x = key +:+ "-" +:+ pretty n)
    (store (run demo_calls new_TodoManager)).
Proof.
  apply (stored_tasks_well_formed (run demo_calls new_TodoManager)).
  apply reachable_run, reachable_new.
Defined.

(** * Identifiers *)

(** Calls other than [createTask] create nothing. *)
Lemma created_ids_quiet c now cs σ :
  is_create c = false ->
  created_ids ((c, now) :: cs) σ = created_ids cs (snd (exec c now σ)).
Proof.
  intros Hc. simpl. destruct (exec c now σ) as [r σ']. simpl.
  by destruct c, r as [|[]].
Qed.

Lemma created_ids_failed input now cs σ :
  createTask input now σ = (inl InvalidInputError, σ) ->
  created_ids ((CreateTask input, now) :: cs) σ = created_ids cs σ.
Proof. intros H. simpl. unfold fmap, M_fmap. by rewrite H. Qed.

Lemma created_ids_created input now cs σ t σ' :
  createTask input now σ = (inr t, σ') ->
  created_ids ((CreateTask input, now) :: cs) σ
  = Task.id (task_at σ' t) :: created_ids cs σ'.
Proof. intros H. simpl. unfold fmap, M_fmap. by rewrite H. Qed.

(** From any well-formed state, the identifiers handed out by a run count
    up from [_nextId]. *)
Lemma created_ids_from cs σ :
  heap_ok σ ->
  created_ids cs σ
  = (λ i, _nextId σ + Z.of_nat i) <$> seq 0 (length (created_ids cs σ)).
Proof.
  revert σ. induction cs as [|[c now] cs IH]; intros σ Hok; [done|].
  destruct (is_create c) eqn:Hc.
  - destruct c; try done.
    destruct (createTask_cases input now σ)
      as [Hf|(title & priority & key & ? & ? & ? & ? & Hs)].
    + rewrite (created_ids_failed _ _ _ _ Hf). by apply IH.
    + rewrite (created_ids_created _ _ _ _ _ _ Hs), created_task.
      cbn [length seq fmap list_fmap Task.id]. f_equal; [lia|].
      rewrite IH at 1 by by apply heap_ok_create.
      rewrite <-fmap_S_seq, <-list_fmap_compose.
      apply list_fmap_ext. intros _ i _. simpl. lia.
  - rewrite (created_ids_quiet _ _ _ _ Hc).
    pose proof (exec_quiet c now σ Hok Hc) as Hq.
    destruct (quiet_frame _ _ Hq) as (<- & _).
    apply IH. eapply heap_ok_step; [done|]. by apply step_quiet.
Qed.

(** C3. On one [TodoManager], whatever calls are made in between
    (removals included), the n-th successful [createTask] returns the task
    with identifier n: the identifiers start at 1 and go up by one per
    creation, so no identifier is handed out twice and the identifier of a
    removed task is not used again. *)
Theorem created_ids_sequential (cs : list (call * Z)) :
  created_ids cs new_TodoManager
  = Z.of_nat <$> seq 1 (length (created_ids cs new_TodoManager))
  ∧ NoDup (created_ids cs new_TodoManager).
Proof.
  assert (created_ids cs new_TodoManager
          = Z.of_nat <$> seq 1 (length (created_ids cs new_TodoManager))) as Heq.
  { rewrite (created_ids_from cs new_TodoManager heap_ok_new) at 1.
    rewrite <-fmap_S_seq, <-list_fmap_compose.
    apply list_fmap_ext. intros _ i _. simpl. lia. }
  split; [done|]. rewrite Heq.
  apply NoDup_fmap_2; [apply _|apply NoDup_seq].
Qed.

Example created_ids_with_removal :
  created_ids [(CreateTask (demo_input "A" "PROJ"), 1);
               (RemoveTask (VNum (Finite 1)), 2);
               (CreateTask (demo_input "" "PROJ"), 3);
               (CreateTask (demo_input "B" "PROJ"), 4)] new_TodoManager
  = [1; 2].
Proof. vm_compute. reflexivity. Qed.

(** * updateTask *)

(** The object literal that [updateTask] passes on has the three fields of
    [changes] and no status. *)
Lemma updateTask_found id changes now σ t :
  heap_ok σ ->
  getTask id σ = (inr t, σ) ->
  truthy changes = true -> typeof changes = "object" ->
  let picked := VObj [("title", prop changes "title");
                      ("description", prop changes "description");
                      ("priority", prop changes "priority")] in
  updateTask id changes now σ
  = (match fst (field_changes picked now) with
     | inl e => inl e
     | inr _ => inr t
     end,
     set_objs (alter (snd (field_changes picked now)) t) σ).
Proof.
  intros Hok Hget Htruthy Htype picked. unfold updateTask, mbind at 1, M_bind at 1.
  rewrite Hget, Htruthy, Htype. simpl.
  pose proof Hget as (_ & Hin & _)%getTask_found.
  unfold mbind, M_bind. fold picked.
  rewrite applyChanges_eq by by apply store_valid.
  by destruct (fst (field_changes picked now)) as [e|[]].
Qed.

(** The extent of the partial write of a failed [updateTask]. For an
    existing task and a changes record with at least one invalid field,
    the call fails with InvalidInput at the first invalid field in the
    order title, description, priority, with the valid fields before it
    already written: the task is left as [after_failed_update] describes,
    with its identifier, code, status, priority and timestamps as before
    the call. Every other task, every array and the counters are
    untouched, and nothing at all changes when the title is the invalid
    field. *)
Theorem updateTask_invalid_field (σ : state) (id : jsval)
    (props : list (string * jsval)) (now : Z) (t : loc) :
  reachable σ ->
  getTask id σ = (inr t, σ) ->
  has_invalid_field (VObj props) = true ->
  ∃ σ',
    updateTask id (VObj props) now σ = (inl InvalidInputError, σ')
    ∧ task_at σ' t = after_failed_update (VObj props) (task_at σ t)
    ∧ Task.id (task_at σ' t) = Task.id (task_at σ t)
    ∧ Task.code (task_at σ' t) = Task.code (task_at σ t)
    ∧ Task.status (task_at σ' t) = Task.status (task_at σ t)
    ∧ Task.priority (task_at σ' t) = Task.priority (task_at σ t)
    ∧ Task.createdAt (task_at σ' t) = Task.createdAt (task_at σ t)
    ∧ Task.updatedAt (task_at σ' t) = Task.updatedAt (task_at σ t)
    ∧ Task.completedAt (task_at σ' t) = Task.completedAt (task_at σ t)
    ∧ (∀ r, r ≠ t -> task_at σ' r = task_at σ r)
    ∧ arrs σ' = arrs σ ∧ _tasks σ' = _tasks σ
    ∧ _nextId σ' = _nextId σ ∧ _codes σ' = _codes σ
    ∧ (invalid_title (prop (VObj props) "title") = true -> σ' = σ).
Proof.
  intros Hok%reachable_ok Hget Hbad.
  pose proof Hget as (_ & Hin & _)%getTask_found.
  pose proof (store_valid _ _ Hok Hin) as Ht.
  exists (snd (updateTask id (VObj props) now σ)).
  rewrite (updateTask_found _ _ _ _ _ Hok Hget) by done.
  cbn [snd]. revert Hbad. unfold has_invalid_field, after_failed_update.
  unfold field_changes, change_title, change_description, change_priority,
    change_status, invalid_title, invalid_description, invalid_priority.
  cbn [prop get_prop String.eqb Ascii.eqb Bool.eqb andb].
  generalize (get_prop props "title") (get_prop props "description")
    (get_prop props "priority").
  intros tv dv pv Hbad.
  rewrite task_at_alter by done.
  assert (∀ f r, r ≠ t -> task_at (set_objs (alter f t) σ) r = task_at σ r)
    as Hother by (intros; by apply task_at_alter_ne).
  clear Hget Hin Hok.
  destruct tv as [| | | |ts|], dv as [| | | |ds|], pv as [| | | |ps|];
    simpl in *; try discriminate;
    repeat match goal with
    | |- context [String.eqb (trim ?s) ""] =>
        destruct (String.eqb (trim s) ""); simpl in *; try discriminate
    | |- context [bool_decide ?P] =>
        destruct (bool_decide P); simpl in *; try discriminate
    end;
    split_and!; rewrite ?set_objs_alter_id; try done; apply Hother.
Qed.

Lemma updateTask_invalid_field_witness :
  ∃ σ',
    updateTask (VNum (Finite 1)) bad_changes 2 old_task_state
    = (inl InvalidInputError, σ')
    ∧ Task.title (task_at σ' 0) = "New"
    ∧ Task.priority (task_at σ' 0) = "medium"
    ∧ Task.updatedAt (task_at σ' 0) = 1.
Proof.
  destruct (updateTask_invalid_field old_task_state (VNum (Finite 1))
              [("title", VStr "New"); ("priority", VStr "urgent")] 2 0%nat)
    as (σ' & Hfail & Htask & _ & _ & _ & Hprio & _ & Hupd & _).
  - apply reachable_run, reachable_new.
  - vm_compute. reflexivity.
  - vm_compute. reflexivity.
  - exists σ'. split; [exact Hfail|]. rewrite Hprio, Hupd, Htask.
    vm_compute. auto.
Defined.

(** C2, at the failing input. On a task titled "Old", [updateTask] with
    the changes [{title: "New", priority: "urgent"}] throws InvalidInput
    for the priority after it has replaced the title: the task is not in
    its pre-call state, against the all-or-nothing behaviour of the claim,
    and its [updatedAt] is not refreshed. *)
Lemma updateTask_partial_write :
  getTask (VNum (Finite 1)) old_task_state = (inr 0%nat, old_task_state)
  ∧ has_invalid_field bad_changes = true
  ∧ fst (updateTask (VNum (Finite 1)) bad_changes 2 old_task_state)
    = inl InvalidInputError
  ∧ Task.title (task_at old_task_state 0) = "Old"
  ∧ Task.title
      (task_at (snd (updateTask (VNum (Finite 1)) bad_changes 2 old_task_state)) 0)
    = "New"
  ∧ Task.updatedAt
      (task_at (snd (updateTask (VNum (Finite 1)) bad_changes 2 old_task_state)) 0)
    = Task.updatedAt (task_at old_task_state 0)
  ∧ task_at (snd (updateTask (VNum (Finite 1)) bad_changes 2 old_task_state)) 0
    ≠ task_at old_task_state 0.
Proof. vm_compute. split_and!; try reflexivity. discriminate. Qed.

(** C10, as the code has it. [updateTask] looks the task up before it
    inspects [changes]: for an id that no task of the store has, the
    outcome is decided by [getTask] alone and the state is unchanged,
    whatever [changes] is, [null] and non-objects included. The call fails
    with NotFound when the id is a number, and with InvalidInput, from the
    type check of the id, when it is not. *)
Theorem updateTask_id_first (id changes : jsval) (now : Z) (σ : state) :
  Forall (λ t, id_seq (Task.id (task_at σ t)) id = false) (store σ) ->
  updateTask id changes now σ
  = (inl (if decide (typeof id = "number") then NotFoundError
          else InvalidInputError), σ).
Proof.
  intros Hmiss. unfold updateTask, mbind, M_bind. case_decide as Hty.
  - destruct id as [| | |n| |]; try done.
    by rewrite (getTask_missing _ _ Hmiss).
  - by rewrite (getTask_not_number _ _ Hty).
Qed.

Lemma updateTask_id_first_witness :
  updateTask (VNum (Finite 999)) VNull 5 old_task_state
  = (inl NotFoundError, old_task_state).
Proof.
  apply (updateTask_id_first (VNum (Finite 999)) VNull 5 old_task_state).
  vm_compute. repeat constructor.
Defined.

(** The claim that every id without a matching task is answered with
    NotFound fails for the id ["abc"]: no task has it, and the call fails
    with InvalidInput. *)
Lemma updateTask_string_id :
  Forall (λ t, id_seq (Task.id (task_at old_task_state t)) (VStr "abc") = false)
    (store old_task_state)
  ∧ updateTask (VStr "abc") VNull 5 old_task_state
    = (inl InvalidInputError, old_task_state)
  ∧ fst (updateTask (VStr "abc") VNull 5 old_task_state) ≠ inl NotFoundError.
Proof.
  split_and!.
  - vm_compute. repeat constructor.
  - vm_compute. reflexivity.
  - vm_compute. discriminate.
Qed.

(** * createTask and the description *)

(** C5, at the failing input: [createTask] stores a numeric description
    and returns the task instead of throwing InvalidInput. *)
Lemma createTask_numeric_description :
  let input := VObj [("title", VStr "A"); ("description", VNum (Finite 5))] in
  fst (createTask input 1 new_TodoManager) = inr 0%nat
  ∧ Task.description (task_at (snd (createTask input 1 new_TodoManager)) 0)
    = VNum (Finite 5).
Proof. vm_compute. done. Qed.

(** What [createTask] stores as the description: the field as given, or
    the empty string when it is [null] or [undefined]. *)
Lemma createTask_description input now σ t σ' :
  createTask input now σ = (inr t, σ') ->
  Task.description (task_at σ' t)
  = (if nullish (prop input "description") then VStr ""
     else prop input "description").
Proof.
  intros Hc.
  destruct (createTask_cases input now σ)
    as [Hf|(title & priority & key & _ & _ & _ & _ & Hs)]; [congruence|].
  rewrite Hs in Hc. injection Hc as <- <-. by rewrite created_task.
Qed.

(** The sibling path: [updateTask] rejects the same description. *)
Example updateTask_numeric_description :
  fst (updateTask (VNum (Finite 1)) (VObj [("description", VNum (Finite 5))]) 2
         old_task_state)
  = inl InvalidInputError.
Proof. vm_compute. reflexivity. Qed.

(** * Identifiers that are not integers *)

Lemma id_seq_integer x (n : number) : id_seq x (VNum n) = true -> is_integer n = true.
Proof.
  destruct n as [q| | |]; simpl; try done.
  intros Heq%Qeq_bool_eq. unfold Qeq in Heq. simpl in Heq.
  apply Z.eqb_eq. rewrite Z.mul_1_r in Heq. rewrite <-Heq.
  apply Z.mod_mul. done.
Qed.

Lemma removeTask_not_number id σ :
  typeof id ≠ "number" -> removeTask id σ = (inl InvalidInputError, σ).
Proof.
  intros H. unfold removeTask.
  destruct (String.eqb_spec (typeof id) "number"); done.
Qed.

Lemma removeTask_missing (n : number) σ :
  Forall (λ t, id_seq (Task.id (task_at σ t)) (VNum n) = false) (store σ) ->
  removeTask (VNum n) σ = (inl NotFoundError, σ).
Proof.
  intros Hall. unfold removeTask. run_M.
  destruct (findIndex _ _) as [i|] eqn:Hi; [|done].
  assert (List.find (λ t, id_seq (Task.id (task_at σ t)) (VNum n)) (store σ) = None)
    as Hnone.
  { destruct (List.find _ _) as [t|] eqn:Hfind; [|done].
    apply elem_of_find in Hfind as [Hin Hp].
    rewrite Forall_forall in Hall. specialize (Hall _ Hin).
    simpl in *. congruence. }
  apply findIndex_None in Hnone.
  change (findIndex (λ t, id_seq (Task.id (task_at σ t)) (VNum n)) (store σ)
          = Some i) in Hi.
  congruence.
Qed.

Lemma fraction_matches_no_task (n : number) σ :
  is_integer n = false ->
  Forall (λ t, id_seq (Task.id (task_at σ t)) (VNum n) = false) (store σ).
Proof.
  intros Hn. rewrite Forall_forall. intros t _.
  destruct (id_seq _ _) eqn:Heq; [|done].
  apply id_seq_integer in Heq. congruence.
Qed.

(** C6, as the code has it. [getTask] and [removeTask] test that [id] is a
    number, not that it is an integer. For an argument that is not an
    integer they fail with InvalidInput when it is not a number at all, and
    with NotFound when it is a number with a fractional part, NaN or an
    infinity, since no task has such an identifier. In both cases the state
    is unchanged. *)
Theorem non_integer_id (id : jsval) (σ : state) :
  not_integer id ->
  let e := if decide (typeof id = "number") then NotFoundError
           else InvalidInputError in
  getTask id σ = (inl e, σ) ∧ removeTask id σ = (inl e, σ).
Proof.
  intros Hid e. subst e. case_decide as Hty.
  - destruct id as [| | |n| |]; try done. simpl in Hid.
    pose proof (fraction_matches_no_task n σ Hid).
    by rewrite getTask_missing, removeTask_missing.
  - by rewrite getTask_not_number, removeTask_not_number.
Qed.

Lemma non_integer_id_witness :
  getTask (VNum (Finite (3 # 2))) old_task_state = (inl NotFoundError, old_task_state)
  ∧ removeTask (VNum (Finite (3 # 2))) old_task_state
    = (inl NotFoundError, old_task_state).
Proof.
  apply (non_integer_id (VNum (Finite (3 # 2))) old_task_state).
  reflexivity.
Defined.

(** The claim that every non-integer id is rejected with InvalidInput
    fails for 1.5, which is answered with NotFound. *)
Lemma getTask_fraction_not_found :
  not_integer (VNum (Finite (3 # 2)))
  ∧ fst (getTask (VNum (Finite (3 # 2))) old_task_state) = inl NotFoundError
  ∧ fst (removeTask (VNum (Finite (3 # 2))) old_task_state) = inl NotFoundError
  ∧ fst (getTask (VNum (Finite (3 # 2))) old_task_state) ≠ inl InvalidInputError.
Proof. vm_compute. split_and!; try reflexivity. discriminate. Qed.

(** * Substrings *)

Lemma prefix_spec n h : String.prefix n h = true ↔ ∃ post, h = n +:+ post.
Proof.
  revert h. induction n as [|c n IH]; intros [|d h]; simpl.
  - split; [by exists ""|done].
  - split; [by exists (String d h)|done].
  - split; [done|by intros [? [=]]].
  - destruct (ascii_dec c d) as [->|Hne].
    + rewrite IH. split; intros [post Hp]; exists post.
      * by rewrite Hp.
      * by injection Hp.
    + split; [done|]. intros [post Hp]. injection Hp as ? ?. congruence.
Qed.

Lemma includes_spec h n :
  includes h n = true ↔ ∃ pre post, h = pre +:+ n +:+ post.
Proof.
  induction h as [|c h IH]; cbn [includes].
  - destruct (String.prefix n "") eqn:Hp.
    + apply prefix_spec in Hp as [post Hp]. split; [|done].
      intros _. by exists "", post.
    + split; [done|]. intros (pre & post & Heq).
      destruct pre; [|done]. assert (String.prefix n "" = true) as Hp'.
      { apply prefix_spec. by exists post. }
      congruence.
  - destruct (String.prefix n (String c h)) eqn:Hp.
    + apply prefix_spec in Hp as [post Hp]. split; [|done].
      intros _. by exists "", post.
    + rewrite IH. split.
      * intros (pre & post & ->). by exists (String c pre), post.
      * intros (pre & post & Heq). destruct pre as [|d pre].
        -- assert (String.prefix n (String c h) = true) as Hp'.
           { apply prefix_spec. by exists post. }
           congruence.
        -- injection Heq as _ ->. by exists pre, post.
Qed.

Example includesCI_login : includesCI "Implementar LOGIN" "login" = true.
Proof. reflexivity. Qed.

(** * Arrays handed out to callers *)

Lemma task_id_of_ref σ t :
  heap_ok σ -> (t < length (objs σ))%nat -> Task.id (task_at σ t) = Z.of_nat t + 1.
Proof. intros Hok Ht. by apply (ok_ids _ Hok), task_at_lookup. Qed.

(** The tasks of any array are listed in the order of their creation. *)
Lemma array_ids_sorted σ a :
  heap_ok σ -> (a < length (arrs σ))%nat ->
  StronglySorted Z.lt ((λ t, Task.id (task_at σ t)) <$> array_at σ a).
Proof.
  intros Hok Ha.
  assert (arrs σ !! a = Some (array_at σ a)) as Hl
    by by apply list_lookup_lookup_total_lt.
  pose proof (ok_refs _ Hok _ _ Hl) as Hrefs.
  pose proof (ok_sorted _ Hok _ _ Hl) as Hsorted.
  rewrite (Forall_fmap_ext_1 _ (λ t, Z.of_nat t + 1)).
  - eapply StronglySorted_fmap; [|done]. intros x y Hxy. lia.
  - eapply Forall_impl; [done|]. intros t Ht. by apply task_id_of_ref.
Qed.

(** No call writes to an array other than [this._tasks]. *)
Lemma step_array_frame σ σ' a :
  step σ σ' -> (a < length (arrs σ))%nat -> a ≠ _tasks σ ->
  array_at σ' a = array_at σ a
  ∧ (a < length (arrs σ'))%nat ∧ _tasks σ' = _tasks σ.
Proof.
  intros Hstep Ha Hne. unfold array_at.
  destruct Hstep as [? []|]; simpl; rewrite ?length_alter, ?length_app;
    split_and!; try done; try lia.
  - by rewrite lookup_total_app_l.
  - by rewrite list_lookup_total_alter_ne.
  - by rewrite list_lookup_total_alter_ne.
Qed.

Lemma run_array_frame cs σ a :
  heap_ok σ -> (a < length (arrs σ))%nat -> a ≠ _tasks σ ->
  array_at (run cs σ) a = array_at σ a.
Proof.
  revert σ. induction cs as [|[c now] cs IH]; intros σ Hok Ha Hne; [done|].
  pose proof (exec_step c now σ Hok) as Hstep.
  destruct (step_array_frame _ _ _ Hstep Ha Hne) as (Heq & Ha' & Ht).
  simpl. rewrite IH; [done|by eapply heap_ok_step|done|congruence].
Qed.

Lemma new_array_at σ l :
  array_at (set_arrs (λ h, h ++ [l]) σ) (length (arrs σ)) = l.
Proof. unfold array_at; simpl. by apply list_lookup_total_middle. Qed.

Lemma old_array_at σ l b :
  (b < length (arrs σ))%nat ->
  array_at (set_arrs (λ h, h ++ [l]) σ) b = array_at σ b.
Proof. intros Hb. unfold array_at; simpl. by rewrite lookup_total_app_l. Qed.

Lemma new_array_length σ l :
  length (arrs (set_arrs (λ h, h ++ [l]) σ)) = S (length (arrs σ)).
Proof. simpl. rewrite length_app. simpl. lia. Qed.

Lemma new_array_store σ l :
  heap_ok σ -> store (set_arrs (λ h, h ++ [l]) σ) = store σ.
Proof. intros Hok. apply old_array_at, Hok. Qed.

(** C7. In a reachable state [listTasks] succeeds and is a pure read: it
    allocates one new array and changes neither a task, nor a counter, nor
    any existing array, the store's own array included. The new array
    holds the tasks of the store in insertion order (ascending
    identifiers). A second call right after it returns another array with
    the same elements. The array returned first is independent of the
    store: after any later sequence of API calls, [createTask] and
    [removeTask] included, it still holds the same elements. *)
Theorem listTasks_snapshot (σ : state) :
  reachable σ ->
  ∃ a σ1,
    listTasks σ = (inr a, σ1)
    ∧ objs σ1 = objs σ ∧ _nextId σ1 = _nextId σ ∧ _codes σ1 = _codes σ
    ∧ _tasks σ1 = _tasks σ
    ∧ (∀ b, (b < length (arrs σ))%nat -> arrs σ1 !! b = arrs σ !! b)
    ∧ arrs σ !! a = None
    ∧ arrs σ1 !! a = Some (store σ)
    ∧ StronglySorted Z.lt ((λ t, Task.id (task_at σ t)) <$> store σ)
    ∧ (∃ a' σ2, listTasks σ1 = (inr a', σ2) ∧ a' ≠ a
                ∧ arrs σ2 !! a' = Some (store σ)
                ∧ arrs σ2 !! a = Some (store σ))
    ∧ (∀ cs, arrs (run cs σ1) !! a = Some (store σ)).
Proof.
  intros Hok%reachable_ok.
  set (σ1 := set_arrs (λ h, h ++ [store σ]) σ).
  assert (heap_ok σ1) as Hok1 by by apply heap_ok_array.
  pose proof (ok_store _ Hok) as Hst.
  pose proof (new_array_at σ (store σ)) as Hnew. fold σ1 in Hnew.
  pose proof (new_array_length σ (store σ)) as Hlen. fold σ1 in Hlen.
  pose proof (new_array_store σ (store σ) Hok) as Hstore. fold σ1 in Hstore.
  assert (∀ τ, (length (arrs σ) < length (arrs τ))%nat ->
               array_at τ (length (arrs σ)) = store σ ->
               arrs τ !! length (arrs σ) = Some (store σ)) as Hget.
  { intros τ Hlt <-. by apply list_lookup_lookup_total_lt. }
  exists (length (arrs σ)), σ1. split_and!; try done.
  - intros b Hb. simpl. by apply lookup_app_l.
  - by apply lookup_ge_None_2.
  - apply Hget; [lia|done].
  - apply (array_ids_sorted σ (_tasks σ) Hok Hst).
  - exists (length (arrs σ1)), (set_arrs (λ h, h ++ [store σ1]) σ1).
    split_and!; [done|lia| |].
    + rewrite <-Hstore. simpl. by apply list_lookup_middle.
    + apply Hget; [rewrite new_array_length; lia|].
      rewrite old_array_at by lia. done.
  - intros cs.
    assert (∀ cs τ, heap_ok τ -> (length (arrs σ) < length (arrs τ))%nat ->
              length (arrs σ) ≠ _tasks τ ->
              (length (arrs σ) < length (arrs (run cs τ)))%nat) as Hgrow.
    { clear. intros cs. induction cs as [|[c now] cs IH]; intros τ Hτ Hlt Hne; [done|].
      destruct (step_array_frame _ _ _ (exec_step c now τ Hτ) Hlt Hne)
        as (_ & Hlt' & Ht).
      simpl. apply IH; [by eapply heap_ok_step, exec_step|done|congruence]. }
    apply Hget.
    + apply Hgrow; [done|lia|simpl; lia].
    + rewrite run_array_frame; [done|done|lia|simpl; lia].
Qed.

Lemma listTasks_snapshot_witness :
  ∃ a σ1,
    listTasks (run demo_calls new_TodoManager) = (inr a, σ1)
    ∧ arrs σ1 !! a = Some [0; 1]%nat
    ∧ arrs (run [(RemoveTask (VNum (Finite 1)), 20);
                 (CreateTask (demo_input "Perfil" "FEAT"), 21)] σ1) !! a
      = Some [0; 1]%nat.
Proof.
  destruct (listTasks_snapshot (run demo_calls new_TodoManager))
    as (a & σ1 & Hcall & _ & _ & _ & _ & _ & _ & Hcontent & _ & _ & Hindep).
  - apply reachable_run, reachable_new.
  - exists a, σ1. split; [exact Hcall|]. rewrite Hindep, Hcontent.
    split; vm_compute; reflexivity.
Defined.

(** * searchByTitle *)

Lemma elem_of_list_filter {A} (p : A -> bool) l x :
  x ∈ List.filter p l ↔ x ∈ l ∧ p x = true.
Proof. rewrite !list_elem_of_In. apply filter_In. Qed.

(** The model [searchByTitle] is [searchByTitle_with] at the ASCII
    restrictions of the two built-ins. *)
Lemma searchByTitle_with_ascii query :
  searchByTitle query = searchByTitle_with trim toLowerCase query.
Proof. reflexivity. Qed.

(** C8, as the code has it, for the built-ins [trim_] and [toLowerCase_]
    whatever they are. [searchByTitle] fails with InvalidInput, and changes
    nothing, for a query that is not a string or that is empty after
    trimming. Otherwise it returns a new array with exactly the tasks of
    the store whose title contains the trimmed query as a case-insensitive
    substring (the lower-cased title contains the lower-cased trimmed
    query), in the order of the store, and changes no task and no existing
    array. *)
Theorem searchByTitle_trimmed (trim_ toLowerCase_ : string -> string)
    (query : jsval) (σ : state) :
  ((∀ s, query = VStr s -> trim_ s = "") ->
   searchByTitle_with trim_ toLowerCase_ query σ = (inl InvalidInputError, σ))
  ∧ (∀ s, query = VStr s -> trim_ s ≠ "" ->
     ∃ a σ' found,
       searchByTitle_with trim_ toLowerCase_ query σ = (inr a, σ')
       ∧ arrs σ !! a = None ∧ arrs σ' !! a = Some found
       ∧ found
         = List.filter
             (λ t, includes (toLowerCase_ (Task.title (task_at σ t)))
                     (toLowerCase_ (trim_ s))) (store σ)
       ∧ found `sublist_of` store σ
       ∧ (∀ t, t ∈ found ↔
            t ∈ store σ
            ∧ ∃ pre post, toLowerCase_ (Task.title (task_at σ t))
                          = pre +:+ toLowerCase_ (trim_ s) +:+ post)
       ∧ objs σ' = objs σ
       ∧ (∀ b, (b < length (arrs σ))%nat -> arrs σ' !! b = arrs σ !! b)).
Proof.
  split.
  - intros Hq. destruct query as [| | | |s|]; try done.
    unfold searchByTitle_with. by rewrite (Hq s eq_refl).
  - intros s -> Hs.
    set (found := List.filter
           (λ t, includes (toLowerCase_ (Task.title (task_at σ t)))
                   (toLowerCase_ (trim_ s))) (store σ)).
    exists (length (arrs σ)), (set_arrs (λ h, h ++ [found]) σ), found.
    split_and!; try done.
    + unfold searchByTitle_with. by destruct (String.eqb_spec (trim_ s) "").
    + by apply lookup_ge_None_2.
    + simpl. by apply list_lookup_middle.
    + apply filter_sublist.
    + intros t. unfold found. rewrite elem_of_list_filter.
      by rewrite includes_spec.
    + intros b Hb. simpl. by apply lookup_app_l.
Qed.

(** The query [" autenticação "] finds the task titled
    "Criar AUTENTICAÇÃO", and the query ["login "] the task titled
    "Implementar LOGIN". *)
Lemma searchByTitle_trimmed_witness :
  (∃ a σ',
     searchByTitle_with trim toLowerCase_latin1 (VStr " autenticação ")
       accented_state = (inr a, σ')
     ∧ arrs σ' !! a = Some [0%nat])
  ∧ (∃ a σ',
       searchByTitle_with trim toLowerCase (VStr "login ")
         (run demo_calls new_TodoManager) = (inr a, σ')
       ∧ arrs σ' !! a = Some [0%nat]).
Proof.
  split.
  - destruct (searchByTitle_trimmed trim toLowerCase_latin1
                (VStr " autenticação ") accented_state) as [_ Hfound].
    destruct (Hfound " autenticação " eq_refl)
      as (a & σ' & found & Hcall & _ & Ha & -> & _).
    + vm_compute. discriminate.
    + exists a, σ'. split; [exact Hcall|]. rewrite Ha.
      vm_compute. reflexivity.
  - destruct (searchByTitle_trimmed trim toLowerCase (VStr "login ")
                (run demo_calls new_TodoManager)) as [_ Hfound].
    destruct (Hfound "login " eq_refl)
      as (a & σ' & found & Hcall & _ & Ha & -> & _).
    + vm_compute. discriminate.
    + exists a, σ'. split; [exact Hcall|]. rewrite Ha.
      vm_compute. reflexivity.
Defined.

(** The claim that the result holds the tasks whose title contains the
    query itself fails for the query ["login "]: the task titled
    "Implementar LOGIN" is returned although its title does not contain
    the query, with its trailing space, in any letter case. *)
Lemma searchByTitle_untrimmed_query :
  fst (searchByTitle (VStr "login ") (run demo_calls new_TodoManager)) = inr 1%nat
  ∧ array_at (snd (searchByTitle (VStr "login ") (run demo_calls new_TodoManager))) 1
    = [0%nat]
  ∧ Task.title (task_at (run demo_calls new_TodoManager) 0) = "Implementar LOGIN"
  ∧ includesCI "Implementar LOGIN" "login " = false.
Proof. vm_compute. done. Qed.

(** * Further properties of the project keys and of the code generator *)

Lemma length_all_chars_key c rest :
  test_key (String c rest) = true ->
  is_upper c = true ∧ all_chars is_key_char rest = true
  ∧ (1 ≤ String.length rest ≤ 9)%nat.
Proof.
  unfold test_key. rewrite !andb_true_iff, !Nat.leb_le. tauto.
Qed.

(** X1. [validateProjectKey] accepts strings only. A key it returns is the
    upper-cased trimmed argument, has 2 to 10 characters, starts with a
    letter [A-Z] and continues with letters and digits; validating the
    returned key again returns it unchanged. *)
Theorem validateProjectKey_normal_form (v : jsval) (key : string) :
  validateProjectKey v = inr key ->
  (∃ s, v = VStr s ∧ key = toUpperCase (trim s))
  ∧ (2 ≤ String.length key ≤ 10)%nat
  ∧ (∃ c rest, key = String c rest ∧ is_upper c = true
               ∧ all_chars is_key_char rest = true)
  ∧ validateProjectKey (VStr key) = inr key.
Proof.
  intros Hv. pose proof (validateProjectKey_chars _ _ Hv) as Hk.
  split; [|split; [|split]].
  - destruct v as [| | | |s|]; try done. exists s. split; [done|].
    simpl in Hv. destruct (test_key _); by simplify_eq.
  - destruct key as [|c rest]; [done|].
    apply length_all_chars_key in Hk as (_ & _ & Hlen). simpl. lia.
  - destruct key as [|c rest]; [done|].
    apply length_all_chars_key in Hk as (Hc & Hrest & _). by exists c, rest.
  - by apply test_key_validate.
Qed.

Lemma validateProjectKey_normal_form_witness :
  (2 ≤ String.length "PROJ" ≤ 10)%nat
  ∧ validateProjectKey (VStr "PROJ") = inr "PROJ".
Proof.
  destruct (validateProjectKey_normal_form (VStr "  proj ") "PROJ")
    as (_ & Hlen & _ & Hidem).
  - reflexivity.
  - split; [exact Hlen|exact Hidem].
Defined.

(** X2. After any history of [next] calls, [peek] of a valid key returns
    the number of codes issued for its normal form (0 for a key never
    used), the code issued next carries that number plus one, and [peek]
    then returns one more. *)
Theorem peek_counts_issued (args : list jsval) (projectKey : jsval) (key : string) :
  validateProjectKey projectKey = inr key ->
  let g := next_all args new_CodeGenerator in
  peek projectKey g = inr (calls_for key args)
  ∧ (∀ n, peek projectKey g = inr n ->
          fst (next projectKey g) = inr (format_code key (n + 1))
          ∧ peek projectKey (snd (next projectKey g)) = inr (n + 1)).
Proof.
  intros Hk g. assert (peek projectKey g = inr (calls_for key args)) as Hpeek.
  { unfold peek. rewrite Hk. subst g. by rewrite counter_next_all. }
  split; [done|]. intros n Hn. rewrite Hpeek in Hn. injection Hn as <-.
  split.
  - rewrite (next_valid _ _ _ Hk). simpl. subst g. by rewrite counter_next_all.
  - unfold peek. rewrite Hk, (counter_next_same _ _ _ Hk).
    subst g. by rewrite counter_next_all.
Qed.

Lemma peek_counts_issued_witness :
  peek (VStr "feat") (next_all [VStr "PROJ"; VStr "Feat "; VStr "x"] new_CodeGenerator)
  = inr 1.
Proof.
  apply (peek_counts_issued [VStr "PROJ"; VStr "Feat "; VStr "x"] (VStr "feat") "FEAT").
  reflexivity.
Defined.

(** * Uniqueness of identifiers and codes *)

Lemma sorted_NoDup (l : list nat) : StronglySorted lt l -> NoDup l.
Proof.
  induction 1 as [|x l _ IH Hall]; constructor; [|done].
  intros Hin. rewrite Forall_forall in Hall. specialize (Hall _ Hin). lia.
Qed.

Lemma store_NoDup σ : heap_ok σ -> NoDup (store σ).
Proof.
  intros Hok. apply sorted_NoDup, (ok_sorted _ Hok (_tasks σ)), store_lookup, Hok.
Qed.

Lemma alter_lookup_inv (f : Task.t -> Task.t) t (l : list Task.t) r x' :
  alter f t l !! r = Some x' ->
  ∃ x, l !! r = Some x ∧ (x' = x ∨ x' = f x).
Proof.
  rewrite list_lookup_alter. case_decide as Hr; [subst r|by eauto].
  destruct (l !! t) as [x|]; simpl; [|done]. intros [= <-]. eauto.
Qed.

Lemma codes_ok_new : codes_ok new_TodoManager.
Proof. split; intros; simplify_eq/=. Qed.

Lemma counter_insert g key key' n :
  counter {| counters := <[key := n]> (counters g) |} key'
  = if decide (key = key') then n else counter g key'.
Proof.
  unfold counter; simpl. rewrite lookup_insert. by case_decide.
Qed.

Lemma codes_ok_step σ σ' : heap_ok σ -> codes_ok σ -> step σ σ' -> codes_ok σ'.
Proof.
  intros Hok [Hform Hinj] [τ Hq|title description priority key now Ht Htrim Hp Hk].
  - destruct Hq as [|l Hl|idx|t f Hin Hf]; try done.
    assert (∀ r x', alter f t (objs σ) !! r = Some x' ->
              ∃ x, objs σ !! r = Some x ∧ Task.code x' = Task.code x) as Hsame.
    { intros r x' (x & Hx & [->| ->])%alter_lookup_inv; exists x; [done|].
      split; [done|]. apply Hf. }
    split; simpl.
    + intros r x' (x & Hx & ->)%Hsame. by eapply Hform.
    + intros r1 r2 x1 x2 (y1 & Hy1 & ->)%Hsame (y2 & Hy2 & ->)%Hsame.
      by eapply Hinj.
  - pose proof (counter_nonneg σ key Hok) as Hc.
    assert (∀ r x, (objs σ ++ [Task.mk (_nextId σ)
                (format_code key (counter (_codes σ) key + 1)) title description
                STATUSES.TODO priority now now None]) !! r = Some x ->
              (objs σ !! r = Some x)
              ∨ (r = length (objs σ)
                 ∧ Task.code x = format_code key (counter (_codes σ) key + 1)))
      as Hcases.
    { intros r x [Hx|[Hr Hx]]%lookup_app_Some; [by left|right].
      apply list_lookup_singleton_Some in Hx as [Hx <-]. split; [lia|done]. }
    assert (∀ r x, objs σ !! r = Some x ->
              Task.code x ≠ format_code key (counter (_codes σ) key + 1)) as Hfresh.
    { intros r x Hx Heq. destruct (Hform _ _ Hx) as (key' & n & Hk' & Hn & Hcode).
      rewrite Hcode in Heq.
      destruct (format_code_inj _ _ _ _ Hk' Hk Heq) as [-> ->]. lia. }
    split; simpl.
    + intros r x [Hx|[_ Hx]]%Hcases.
      * destruct (Hform _ _ Hx) as (key' & n & Hk' & Hn & Hcode).
        exists key', n. split_and!; try done; [lia|].
        rewrite counter_insert. case_decide; [subst|]; lia.
      * exists key, (counter (_codes σ) key + 1). split_and!; try done; [lia|].
        rewrite counter_insert. case_decide; [lia|done].
    + intros r1 r2 x1 x2 [H1|[-> H1]]%Hcases [H2|[-> H2]]%Hcases Heq.
      * by eapply Hinj.
      * rewrite H2 in Heq. by destruct (Hfresh _ _ H1).
      * rewrite H1 in Heq. by destruct (Hfresh _ _ H2).
      * done.
Qed.

Lemma reachable_codes_ok σ : reachable σ -> codes_ok σ.
Proof.
  induction 1 as [|σ c now Hr IH]; [apply codes_ok_new|].
  pose proof (reachable_ok _ Hr) as Hok.
  eapply codes_ok_step; [done..|]. by apply exec_step.
Qed.

(** X3. In every reachable state the store lists no task twice and every
    task it lists exists; and among all Task objects ever created, the
    removed ones included, no two have the same identifier and no two have
    the same code. *)
Theorem ids_and_codes_unique (σ : state) :
  reachable σ ->
  NoDup (store σ)
  ∧ Forall (λ t, is_Some (objs σ !! t)) (store σ)
  ∧ (∀ r1 r2 x1 x2,
       objs σ !! r1 = Some x1 -> objs σ !! r2 = Some x2 ->
       Task.id x1 = Task.id x2 ∨ Task.code x1 = Task.code x2 -> r1 = r2).
Proof.
  intros Hr. pose proof (reachable_ok _ Hr) as Hok.
  destruct (reachable_codes_ok _ Hr) as [_ Hinj]. split_and!.
  - by apply store_NoDup.
  - rewrite Forall_forall. intros t Ht. exists (task_at σ t).
    by apply task_at_lookup, store_valid.
  - intros r1 r2 x1 x2 H1 H2 [Hid|Hcode]; [|by eapply Hinj].
    rewrite (ok_ids _ Hok _ _ H1), (ok_ids _ Hok _ _ H2) in Hid. lia.
Qed.

Lemma ids_and_codes_unique_witness :
  NoDup (store (run demo_calls new_TodoManager)).
Proof.
  apply (ids_and_codes_unique (run demo_calls new_TodoManager)).
  apply reachable_run, reachable_new.
Defined.

(** * Looking tasks up by identifier and by code *)

Lemma str_app_cons c s t : String c s +:+ t = String c (s +:+ t).
Proof. reflexivity. Qed.

Lemma split_key_code key rest :
  all_chars is_key_char key = true ->
  split_key (key +:+ String "-" rest) = (key, String "-" rest).
Proof.
  induction key as [|c key IH]; [done|]. cbn [all_chars].
  intros [Hc Hkey]%andb_prop. rewrite str_app_cons. cbn [split_key].
  by rewrite Hc, (IH Hkey).
Qed.

Lemma pretty_N_char_digit x : is_digit (pretty_N_char x) = true.
Proof. unfold pretty_N_char. by repeat case_match. Qed.

Lemma pretty_N_go_digits x s :
  all_chars is_digit s = true -> all_chars is_digit (pretty_N_go x s) = true.
Proof.
  revert s. induction (N.lt_wf_0 x) as [x _ IH]; intros s Hs.
  destruct (decide (x = 0)%N) as [->|Hx]; [by rewrite pretty_N_go_0|].
  rewrite pretty_N_go_step by lia. apply IH.
  - apply N.div_lt; lia.
  - cbn [all_chars]. by rewrite pretty_N_char_digit, Hs.
Qed.

Lemma pretty_N_go_nonempty x s : s ≠ "" -> pretty_N_go x s ≠ "".
Proof.
  revert s. induction (N.lt_wf_0 x) as [x _ IH]; intros s Hs.
  destruct (decide (x = 0)%N) as [->|Hx]; [by rewrite pretty_N_go_0|].
  rewrite pretty_N_go_step by lia. apply IH; [apply N.div_lt; lia|done].
Qed.

Lemma pretty_positive_digits (n : Z) :
  1 ≤ n -> pretty n ≠ "" ∧ all_chars is_digit (pretty n) = true.
Proof.
  destruct n as [|p|p]; try lia. intros _.
  change (pretty (Z.pos p)) with (pretty_N_go (N.pos p) "").
  split; [|by apply pretty_N_go_digits].
  rewrite pretty_N_go_step by lia. by apply pretty_N_go_nonempty.
Qed.

Lemma test_code_format key n :
  test_key key = true -> 1 ≤ n -> test_code (format_code key n) = true.
Proof.
  intros Hk Hn. destruct (pretty_positive_digits n Hn) as [Hne Hdig].
  unfold test_code, format_code.
  change (key +:+ "-" +:+ pretty n) with (key +:+ String "-" (pretty n)).
  rewrite (split_key_code _ _ (test_key_chars _ Hk)), Hk, Hdig.
  by destruct (String.eqb_spec (pretty n) "").
Qed.

Lemma all_chars_impl (p q : ascii -> bool) s :
  (∀ c, p c = true -> q c = true) ->
  all_chars p s = true -> all_chars q s = true.
Proof.
  intros Hpq. induction s as [|c s IH]; [done|]. cbn [all_chars].
  intros [Hc Hs]%andb_prop. by rewrite (Hpq _ Hc), (IH Hs).
Qed.

Lemma all_chars_app p s t :
  all_chars p (s +:+ t) = all_chars p s && all_chars p t.
Proof.
  induction s as [|c s IH]; [done|].
  rewrite str_app_cons. cbn [all_chars]. by rewrite IH, andb_assoc.
Qed.

Lemma key_char_plain c : is_key_char c = true -> is_plain_char c = true.
Proof. by destruct c as [[] [] [] [] [] [] [] []]. Qed.

Lemma digit_plain c : is_digit c = true -> is_plain_char c = true.
Proof. by destruct c as [[] [] [] [] [] [] [] []]. Qed.

Lemma plain_not_space c : is_plain_char c = true -> is_space c = false.
Proof. unfold is_plain_char. by destruct (is_space c). Qed.

Lemma plain_not_lower c : is_plain_char c = true -> is_lower c = false.
Proof. unfold is_plain_char. by destruct (is_space c), (is_lower c). Qed.

Lemma toUpperCase_plain s : all_chars is_plain_char s = true -> toUpperCase s = s.
Proof.
  unfold toUpperCase.
  induction s as [|c s IH]; cbn [map_string all_chars]; [done|].
  intros [Hc Hs]%andb_prop. rewrite (IH Hs). unfold upper_char.
  by rewrite (plain_not_lower _ Hc).
Qed.

Lemma trimEnd_plain s : all_chars is_plain_char s = true -> trimEnd s = s.
Proof.
  induction s as [|c s IH]; [done|]. cbn [all_chars trimEnd all_space].
  intros [Hc Hs]%andb_prop. by rewrite (plain_not_space _ Hc), (IH Hs).
Qed.

Lemma trim_plain s : all_chars is_plain_char s = true -> trim s = s.
Proof.
  intros Hs. unfold trim. rewrite trimStart_id; [by apply trimEnd_plain|].
  destruct s as [|c s]; [done|]. cbn [all_chars] in Hs.
  apply andb_prop in Hs as [Hc _]. by apply plain_not_space.
Qed.

Lemma format_code_plain key n :
  test_key key = true -> 1 ≤ n -> all_chars is_plain_char (format_code key n) = true.
Proof.
  intros Hk Hn. destruct (pretty_positive_digits n Hn) as [_ Hdig].
  unfold format_code. rewrite !all_chars_app.
  rewrite (all_chars_impl _ _ _ key_char_plain (test_key_chars _ Hk)).
  by rewrite (all_chars_impl _ _ _ digit_plain Hdig).
Qed.

Lemma find_unique {A} (p : A -> bool) l t :
  t ∈ l -> p t = true -> (∀ r, r ∈ l -> p r = true -> r = t) ->
  List.find p l = Some t.
Proof.
  induction l as [|x l IH]; [by intros ?%elem_of_nil|].
  intros Hin Hp Huniq. simpl. destruct (p x) eqn:Hx.
  - f_equal. apply Huniq; [left|done].
  - apply IH; [|done|].
    + apply elem_of_cons in Hin as [->|Hin]; [congruence|done].
    + intros r Hr. apply Huniq. by right.
Qed.

Lemma id_seq_num x y : id_seq x (num y) = true ↔ x = y.
Proof.
  unfold num; simpl. rewrite Qeq_bool_iff. unfold Qeq; simpl. lia.
Qed.

Lemma store_ids_inj σ t1 t2 :
  heap_ok σ -> t1 ∈ store σ -> t2 ∈ store σ ->
  Task.id (task_at σ t1) = Task.id (task_at σ t2) -> t1 = t2.
Proof.
  intros Hok H1 H2.
  rewrite (task_id_of_ref σ t1 Hok), (task_id_of_ref σ t2 Hok)
    by by apply store_valid.
  lia.
Qed.

Lemma getTask_number (n : number) σ :
  getTask (VNum n) σ
  = match List.find (λ t, id_seq (Task.id (task_at σ t)) (VNum n)) (store σ) with
    | Some t => (inr t, σ)
    | None => (inl NotFoundError, σ)
    end.
Proof. unfold getTask. run_M. by destruct (List.find _ _). Qed.

Lemma removeTask_number (n : number) σ :
  removeTask (VNum n) σ
  = match findIndex (λ t, id_seq (Task.id (task_at σ t)) (VNum n)) (store σ) with
    | Some idx => (inr tt, set_arrs (alter (delete idx) (_tasks σ)) σ)
    | None => (inl NotFoundError, σ)
    end.
Proof. unfold removeTask, tasks_splice. run_M. by destruct (findIndex _ _). Qed.

Lemma getTask_finds_stored_aux σ t :
  heap_ok σ -> t ∈ store σ ->
  List.find (λ r, id_seq (Task.id (task_at σ r)) (num (Task.id (task_at σ t))))
    (store σ) = Some t.
Proof.
  intros Hok Hin. apply find_unique; [done|by apply id_seq_num|].
  intros r Hr Hp%id_seq_num. by apply (store_ids_inj σ).
Qed.

(** X4. In every reachable state, [getTask] called with the identifier of
    a task of the store returns that very task and changes nothing: a
    created task can be read back by the identifier it was given. *)
Theorem getTask_finds_stored (σ : state) (t : loc) :
  reachable σ -> t ∈ store σ ->
  getTask (num (Task.id (task_at σ t))) σ = (inr t, σ).
Proof.
  intros Hok%reachable_ok Hin.
  pose proof (getTask_finds_stored_aux σ t Hok Hin) as Hfind.
  unfold num in *. by rewrite getTask_number, Hfind.
Qed.

Lemma getTask_finds_stored_witness :
  getTask (num 2) (run demo_calls new_TodoManager)
  = (inr 1%nat, run demo_calls new_TodoManager).
Proof.
  apply (getTask_finds_stored (run demo_calls new_TodoManager) 1%nat).
  - apply reachable_run, reachable_new.
  - vm_compute. apply list_elem_of_In. simpl. auto.
Defined.

(** X5. In every reachable state, [findByCode] called with a string whose
    trimmed upper-case form is the code of a task of the store returns that
    task and changes nothing; the code itself is such a string, so the
    lookup is insensitive to letter case and to surrounding blanks. *)
Theorem findByCode_finds_stored (σ : state) (t : loc) (c : string) :
  reachable σ -> t ∈ store σ ->
  toUpperCase (trim c) = Task.code (task_at σ t) ->
  findByCode (VStr c) σ = (inr t, σ)
  ∧ findByCode (VStr (Task.code (task_at σ t))) σ = (inr t, σ).
Proof.
  intros Hr Hin Hc. pose proof (reachable_ok _ Hr) as Hok.
  destruct (reachable_codes_ok _ Hr) as [Hform Hinj].
  pose proof (task_at_lookup σ t (store_valid _ _ Hok Hin)) as Hx.
  destruct (Hform _ _ Hx) as (key & n & Hk & [Hn _] & Hcode).
  assert (∀ c', toUpperCase (trim c') = Task.code (task_at σ t) ->
                findByCode (VStr c') σ = (inr t, σ)) as Hfind.
  { intros c' Hc'. unfold findByCode. rewrite Hc', Hcode.
    rewrite (test_code_format _ _ Hk Hn). run_M. rewrite <-Hcode.
    rewrite (find_unique _ _ t); [done|done|by apply String.eqb_eq|].
    intros r Hin' Heq%String.eqb_eq.
    eapply Hinj; [by apply task_at_lookup, store_valid|done|done]. }
  split; [by apply Hfind|]. apply Hfind.
  pose proof (format_code_plain _ _ Hk Hn) as Hplain. rewrite <-Hcode in Hplain.
  by rewrite (trim_plain _ Hplain), (toUpperCase_plain _ Hplain).
Qed.

Lemma findByCode_finds_stored_witness :
  findByCode (VStr " proj-2 ") (run demo_calls new_TodoManager)
  = (inr 1%nat, run demo_calls new_TodoManager).
Proof.
  apply (findByCode_finds_stored (run demo_calls new_TodoManager) 1%nat " proj-2 ").
  - apply reachable_run, reachable_new.
  - vm_compute. apply list_elem_of_In. simpl. auto.
  - vm_compute. reflexivity.
Defined.

(** * removeTask *)

Lemma findIndex_find {A} (p : A -> bool) l t :
  List.find p l = Some t -> ∃ i, findIndex p l = Some i ∧ l !! i = Some t.
Proof.
  induction l as [|x l IH]; [done|]. simpl. destruct (p x).
  - intros [= ->]. by exists 0%nat.
  - intros (i & -> & Hi)%IH. by exists (S i).
Qed.

Lemma delete_filter (l : list nat) i t :
  NoDup l -> l !! i = Some t ->
  delete i l = List.filter (λ r, negb (Nat.eqb r t)) l.
Proof.
  revert i. induction l as [|x l IH]; intros i Hnd Hi; [done|].
  apply NoDup_cons in Hnd as [Hx Hnd]. destruct i as [|i]; simpl in *.
  - injection Hi as ->. rewrite Nat.eqb_refl. simpl.
    symmetry. apply forallb_filter_id, forallb_forall.
    intros r Hr%list_elem_of_In. apply negb_true_iff, Nat.eqb_neq. by intros ->.
  - destruct (Nat.eqb_spec x t) as [->|_]; simpl.
    + destruct Hx. by eapply list_elem_of_lookup_2.
    + f_equal. by apply IH.
Qed.

Lemma store_splice σ idx :
  heap_ok σ ->
  store (set_arrs (alter (delete idx) (_tasks σ)) σ) = delete idx (store σ).
Proof.
  intros Hok. unfold store, array_at; simpl.
  by rewrite list_lookup_total_alter_eq by apply Hok.
Qed.

(** X6. In every reachable state, [removeTask] called with the identifier
    of a task of the store succeeds and removes exactly that task: the
    other tasks stay in the store in their order, no Task object, no
    counter and no other array changes, and [getTask] with the same
    identifier then fails with NotFound. *)
Theorem removeTask_removes (σ : state) (t : loc) :
  reachable σ -> t ∈ store σ ->
  ∃ σ',
    removeTask (num (Task.id (task_at σ t))) σ = (inr tt, σ')
    ∧ store σ' = List.filter (λ r, negb (Nat.eqb r t)) (store σ)
    ∧ S (length (store σ')) = length (store σ)
    ∧ objs σ' = objs σ ∧ _nextId σ' = _nextId σ ∧ _codes σ' = _codes σ
    ∧ (∀ b, b ≠ _tasks σ -> arrs σ' !! b = arrs σ !! b)
    ∧ getTask (num (Task.id (task_at σ t))) σ' = (inl NotFoundError, σ').
Proof.
  intros Hr Hin. pose proof (reachable_ok _ Hr) as Hok.
  pose proof (getTask_finds_stored_aux σ t Hok Hin) as Hfind.
  apply findIndex_find in Hfind as (idx & Hidx & Ht).
  exists (set_arrs (alter (delete idx) (_tasks σ)) σ).
  assert (store (set_arrs (alter (delete idx) (_tasks σ)) σ)
          = List.filter (λ r, negb (Nat.eqb r t)) (store σ)) as Hstore.
  { rewrite store_splice by done. by apply delete_filter, Ht; apply store_NoDup. }
  split_and!; try done.
  - unfold num in *. by rewrite removeTask_number, Hidx.
  - rewrite store_splice by done.
    rewrite length_delete by eauto. apply lookup_lt_Some in Ht. lia.
  - intros b Hb. simpl. by apply list_lookup_alter_ne.
  - apply getTask_missing. rewrite Hstore, Forall_forall.
    intros r [Hr' Hne]%elem_of_list_filter.
    apply negb_true_iff, Nat.eqb_neq in Hne.
    destruct (id_seq _ _) eqn:Hseq; [|done].
    apply id_seq_num in Hseq. destruct Hne. by apply (store_ids_inj σ).
Qed.

Lemma removeTask_removes_witness :
  ∃ σ',
    removeTask (num 1) (run demo_calls new_TodoManager) = (inr tt, σ')
    ∧ store σ' = [1%nat]
    ∧ getTask (num 1) σ' = (inl NotFoundError, σ').
Proof.
  destruct (removeTask_removes (run demo_calls new_TodoManager) 0%nat)
    as (σ' & Hcall & Hstore & _ & _ & _ & _ & _ & Hget).
  - apply reachable_run, reachable_new.
  - vm_compute. apply list_elem_of_In. simpl. auto.
  - exists σ'. split; [exact Hcall|]. split; [|exact Hget].
    rewrite Hstore. vm_compute. reflexivity.
Defined.

(** * Filters and counts *)

Lemma has_Some set s : s ∈ set -> has set (VStr s) = Some s.
Proof. intros Hs. simpl. by rewrite bool_decide_eq_true_2. Qed.

(** X7. [filterByStatus] and [filterByPriority] fail with InvalidInput,
    changing nothing, for an argument that is not one of the three values
    of the enumeration (a value that is not a string included). Otherwise
    they succeed, also when nothing matches: they return a new array with
    exactly the tasks of the store that have the status (the priority), in
    the order of the store, and change no task and no existing array. *)
Theorem filters_select (v : jsval) (σ : state) :
  (has VALID_STATUS v = None -> filterByStatus v σ = (inl InvalidInputError, σ))
  ∧ (has VALID_PRIORITY v = None -> filterByPriority v σ = (inl InvalidInputError, σ))
  ∧ (∀ s, v = VStr s -> s ∈ VALID_STATUS ->
     ∃ a σ' found,
       filterByStatus v σ = (inr a, σ')
       ∧ arrs σ !! a = None ∧ arrs σ' !! a = Some found
       ∧ found `sublist_of` store σ
       ∧ (∀ t, t ∈ found ↔ t ∈ store σ ∧ Task.status (task_at σ t) = s)
       ∧ objs σ' = objs σ
       ∧ (∀ b, (b < length (arrs σ))%nat -> arrs σ' !! b = arrs σ !! b))
  ∧ (∀ p, v = VStr p -> p ∈ VALID_PRIORITY ->
     ∃ a σ' found,
       filterByPriority v σ = (inr a, σ')
       ∧ arrs σ !! a = None ∧ arrs σ' !! a = Some found
       ∧ found `sublist_of` store σ
       ∧ (∀ t, t ∈ found ↔ t ∈ store σ ∧ Task.priority (task_at σ t) = p)
       ∧ objs σ' = objs σ
       ∧ (∀ b, (b < length (arrs σ))%nat -> arrs σ' !! b = arrs σ !! b)).
Proof.
  split_and!.
  - intros Hv. unfold filterByStatus. by rewrite Hv.
  - intros Hv. unfold filterByPriority. by rewrite Hv.
  - intros s -> Hs.
    set (found := List.filter
           (λ t, String.eqb (Task.status (task_at σ t)) s) (store σ)).
    exists (length (arrs σ)), (set_arrs (λ h, h ++ [found]) σ), found.
    split_and!; try done.
    + unfold filterByStatus. by rewrite (has_Some _ _ Hs).
    + by apply lookup_ge_None_2.
    + simpl. by apply list_lookup_middle.
    + apply filter_sublist.
    + intros t. unfold found. by rewrite elem_of_list_filter, String.eqb_eq.
    + intros b Hb. simpl. by apply lookup_app_l.
  - intros p -> Hp.
    set (found := List.filter
           (λ t, String.eqb (Task.priority (task_at σ t)) p) (store σ)).
    exists (length (arrs σ)), (set_arrs (λ h, h ++ [found]) σ), found.
    split_and!; try done.
    + unfold filterByPriority. by rewrite (has_Some _ _ Hp).
    + by apply lookup_ge_None_2.
    + simpl. by apply list_lookup_middle.
    + apply filter_sublist.
    + intros t. unfold found. by rewrite elem_of_list_filter, String.eqb_eq.
    + intros b Hb. simpl. by apply lookup_app_l.
Qed.

Lemma filters_select_witness :
  filterByPriority (VStr "urgent") (run demo_calls new_TodoManager)
  = (inl InvalidInputError, run demo_calls new_TodoManager)
  ∧ ∃ a σ' found,
      filterByStatus (VStr "todo") (run demo_calls new_TodoManager) = (inr a, σ')
      ∧ arrs σ' !! a = Some found ∧ 1%nat ∈ found.
Proof.
  destruct (filters_select (VStr "urgent") (run demo_calls new_TodoManager))
    as (_ & Hbad & _).
  destruct (filters_select (VStr "todo") (run demo_calls new_TodoManager))
    as (_ & _ & Hgood & _).
  split; [by apply Hbad|].
  destruct (Hgood "todo" eq_refl) as (a & σ' & found & Hcall & _ & Ha & _ & Hmem & _).
  - vm_compute. apply list_elem_of_In. simpl. auto.
  - exists a, σ', found. split; [exact Hcall|]. split; [exact Ha|].
    apply Hmem. split; [|vm_compute; reflexivity].
    vm_compute. apply list_elem_of_In. simpl. auto.
Defined.

Lemma inject_Z_succ (a : Z) : (inject_Z a + 1)%Q = inject_Z (a + 1).
Proof. unfold Qplus, inject_Z; simpl. f_equal. lia. Qed.

Lemma counts_eq (a a' b b' c c' : Z) :
  a = a' -> b = b' -> c = c' ->
  [("todo", Finite (inject_Z a)); ("in_progress", Finite (inject_Z b));
   ("done", Finite (inject_Z c))]
  = [("todo", Finite (inject_Z a')); ("in_progress", Finite (inject_Z b'));
     ("done", Finite (inject_Z c'))].
Proof. by intros -> -> ->. Qed.

Lemma count_in_cons σ s t l :
  count_in σ s (t :: l)
  = (if String.eqb (Task.status (task_at σ t)) s then 1 else 0) + count_in σ s l.
Proof.
  unfold count_in. cbn [List.filter].
  destruct (String.eqb _ s); cbn [length]; lia.
Qed.

(** The loop of [countByStatus] over tasks with valid statuses. *)
Lemma count_fold σ (l : list loc) (a b c : Z) :
  Forall (λ t, Task.status (task_at σ t) ∈ VALID_STATUS) l ->
  fold_left (λ acc t, incr_prop acc (Task.status (task_at σ t))) l
    [("todo", Finite (inject_Z a)); ("in_progress", Finite (inject_Z b));
     ("done", Finite (inject_Z c))]
  = [("todo", Finite (inject_Z (a + count_in σ "todo" l)));
     ("in_progress", Finite (inject_Z (b + count_in σ "in_progress" l)));
     ("done", Finite (inject_Z (c + count_in σ "done" l)))]
  ∧ count_in σ "todo" l + count_in σ "in_progress" l + count_in σ "done" l
    = Z.of_nat (length l).
Proof.
  intros Hall. revert a b c.
  induction Hall as [|t l Ht _ IH]; intros a b c.
  { unfold count_in; simpl. by rewrite !Z.add_0_r. }
  rewrite !count_in_cons. cbn [fold_left length].
  unfold VALID_STATUS in Ht.
  rewrite !elem_of_cons, elem_of_nil in Ht.
  destruct Ht as [Ht|[Ht|[Ht|[]]]]; rewrite Ht;
    unfold STATUSES.TODO, STATUSES.IN_PROGRESS, STATUSES.DONE;
    cbn [incr_prop String.eqb Ascii.eqb Bool.eqb andb number_succ];
    rewrite inject_Z_succ;
    destruct (IH a b c) as [_ Hsum];
    [destruct (IH (a + 1) b c) as [-> _]
    |destruct (IH a (b + 1) c) as [-> _]
    |destruct (IH a b (c + 1)) as [-> _]];
    (split; [apply counts_eq; lia|lia]).
Qed.

(** X8. In every reachable state [countByStatus] changes nothing and
    returns an object with exactly the keys [todo], [in_progress] and
    [done], each holding the number of tasks of the store with that
    status; the three numbers add up to the number of tasks. *)
Theorem countByStatus_counts (σ : state) :
  reachable σ ->
  countByStatus σ
  = (inr [("todo", Finite (inject_Z (count_status σ "todo")));
          ("in_progress", Finite (inject_Z (count_status σ "in_progress")));
          ("done", Finite (inject_Z (count_status σ "done")))], σ)
  ∧ count_status σ "todo" + count_status σ "in_progress" + count_status σ "done"
    = Z.of_nat (length (store σ)).
Proof.
  intros Hok%reachable_ok.
  assert (Forall (λ t, Task.status (task_at σ t) ∈ VALID_STATUS) (store σ)) as Hall.
  { rewrite Forall_forall. intros t Ht. apply (wf_status _ (store_task_wf _ _ Hok Ht)). }
  destruct (count_fold σ (store σ) 0 0 0 Hall) as [Hfold Hsum].
  split; [|exact Hsum].
  unfold countByStatus. run_M. f_equal. f_equal. exact Hfold.
Qed.

Lemma countByStatus_counts_witness :
  fst (countByStatus (run demo_calls new_TodoManager))
  = inr [("todo", Finite (inject_Z 2)); ("in_progress", Finite (inject_Z 0));
         ("done", Finite (inject_Z 0))].
Proof.
  destruct (countByStatus_counts (run demo_calls new_TodoManager)) as [-> _].
  - apply reachable_run, reachable_new.
  - vm_compute. reflexivity.
Defined.

(** * changeStatus and updateTask on an existing task *)

Lemma changeStatus_found id newStatus now σ t :
  heap_ok σ -> getTask id σ = (inr t, σ) ->
  changeStatus id newStatus now σ
  = (match fst (field_changes (VObj [("status", newStatus)]) now) with
     | inl e => inl e
     | inr _ => inr t
     end,
     set_objs (alter (snd (field_changes (VObj [("status", newStatus)]) now)) t) σ).
Proof.
  intros Hok Hget. unfold changeStatus, mbind at 1, M_bind at 1. rewrite Hget.
  pose proof Hget as (_ & Hin & _)%getTask_found.
  unfold mbind, M_bind. rewrite applyChanges_eq by by apply store_valid.
  by destruct (fst (field_changes _ now)) as [e|[]].
Qed.

(** X9. For an existing task, [changeStatus] validates the new status only
    when it is present: with [null] or [undefined] it succeeds, leaves
    status and [completedAt] as they are and refreshes [updatedAt]; with
    any other value outside [todo], [in_progress] and [done] it fails with
    InvalidInput and changes nothing at all. *)
Theorem changeStatus_edge_values (id newStatus : jsval) (now : Z) (σ : state) (t : loc) :
  reachable σ -> getTask id σ = (inr t, σ) ->
  (nullish newStatus = true ->
   changeStatus id newStatus now σ
   = (inr t, set_objs (alter (Task.set_updatedAt now) t) σ))
  ∧ (nullish newStatus = false -> has VALID_STATUS newStatus = None ->
     changeStatus id newStatus now σ = (inl InvalidInputError, σ)).
Proof.
  intros Hok%reachable_ok Hget.
  rewrite (changeStatus_found _ _ _ _ _ Hok Hget).
  unfold field_changes, change_title, change_description, change_priority,
    change_status.
  cbn [prop get_prop String.eqb Ascii.eqb Bool.eqb andb nullish negb].
  split.
  - by intros ->.
  - intros -> ->. simpl. by rewrite set_objs_alter_id.
Qed.

Lemma changeStatus_edge_values_witness :
  changeStatus (num 1) VNull 7 old_task_state
  = (inr 0%nat, set_objs (alter (Task.set_updatedAt 7) 0%nat) old_task_state)
  ∧ changeStatus (num 1) (VStr "paused") 7 old_task_state
    = (inl InvalidInputError, old_task_state).
Proof.
  destruct (changeStatus_edge_values (num 1) VNull 7 old_task_state 0%nat)
    as [Hnull _].
  { apply reachable_run, reachable_new. }
  { vm_compute. reflexivity. }
  destruct (changeStatus_edge_values (num 1) (VStr "paused") 7 old_task_state 0%nat)
    as [_ Hbad].
  { apply reachable_run, reachable_new. }
  { vm_compute. reflexivity. }
  split; [by apply Hnull|by apply Hbad].
Defined.

(** X10. For an existing task, [updateTask] fails with InvalidInput and
    changes nothing when [changes] is not an object. With a changes record
    none of whose fields is invalid it succeeds, returns the task, writes
    the trimmed title, the description and the priority that are present,
    and refreshes [updatedAt]; the status and [completedAt] are never
    touched, whatever else the record carries (a [status] field
    included), and no other task, array or counter changes. *)
Theorem updateTask_valid_fields (σ : state) (id changes : jsval) (now : Z) (t : loc) :
  reachable σ -> getTask id σ = (inr t, σ) ->
  (truthy changes = false ∨ typeof changes ≠ "object" ->
   updateTask id changes now σ = (inl InvalidInputError, σ))
  ∧ (∀ props, changes = VObj props -> has_invalid_field changes = false ->
     ∃ σ',
       updateTask id changes now σ = (inr t, σ')
       ∧ task_at σ' t
         = Task.set_updatedAt now
             (write_priority (prop changes "priority")
                (write_description (prop changes "description")
                   (write_title (prop changes "title") (task_at σ t))))
       ∧ Task.status (task_at σ' t) = Task.status (task_at σ t)
       ∧ Task.completedAt (task_at σ' t) = Task.completedAt (task_at σ t)
       ∧ (∀ r, r ≠ t -> task_at σ' r = task_at σ r)
       ∧ arrs σ' = arrs σ ∧ _nextId σ' = _nextId σ ∧ _codes σ' = _codes σ).
Proof.
  intros Hok%reachable_ok Hget. split.
  - intros Hbad. unfold updateTask, mbind at 1, M_bind at 1. rewrite Hget.
    destruct Hbad as [->|Hty]; [done|].
    destruct (String.eqb_spec (typeof changes) "object"); [done|].
    by rewrite orb_true_r.
  - intros props -> Hvalid.
    pose proof Hget as (_ & Hin & _)%getTask_found.
    pose proof (store_valid _ _ Hok Hin) as Ht.
    exists (snd (updateTask id (VObj props) now σ)).
    rewrite (updateTask_found _ _ _ _ _ Hok Hget) by done.
    cbn [snd]. revert Hvalid. unfold has_invalid_field, write_priority.
    unfold field_changes, change_title, change_description, change_priority,
      change_status, invalid_title, invalid_description, invalid_priority.
    cbn [prop get_prop String.eqb Ascii.eqb Bool.eqb andb].
    generalize (get_prop props "title") (get_prop props "description")
      (get_prop props "priority").
    intros tv dv pv Hvalid.
    rewrite task_at_alter by done.
    assert (∀ f r, r ≠ t -> task_at (set_objs (alter f t) σ) r = task_at σ r)
      as Hother by (intros; by apply task_at_alter_ne).
    clear Hget Hin Hok.
    destruct tv as [| | | |ts|], dv as [| | | |ds|], pv as [| | | |ps|];
      simpl in *; try discriminate;
      repeat match goal with
      | |- context [String.eqb (trim ?s) ""] =>
          destruct (String.eqb (trim s) ""); simpl in *; try discriminate
      | |- context [bool_decide ?P] =>
          destruct (bool_decide P); simpl in *; try discriminate
      end;
      split_and!; try done; apply Hother.
Qed.

Lemma updateTask_valid_fields_witness :
  ∃ σ',
    updateTask (num 1)
      (VObj [("title", VStr " New "); ("status", VStr "done")]) 9 old_task_state
    = (inr 0%nat, σ')
    ∧ Task.title (task_at σ' 0) = "New"
    ∧ Task.status (task_at σ' 0) = "todo"
    ∧ Task.updatedAt (task_at σ' 0) = 9.
Proof.
  destruct (updateTask_valid_fields old_task_state (num 1)
              (VObj [("title", VStr " New "); ("status", VStr "done")]) 9 0%nat)
    as [_ Hgood].
  { apply reachable_run, reachable_new. }
  { vm_compute. reflexivity. }
  destruct (Hgood [("title", VStr " New "); ("status", VStr "done")] eq_refl)
    as (σ' & Hcall & Htask & Hstatus & _).
  { vm_compute. reflexivity. }
  exists σ'. split; [exact Hcall|]. rewrite Hstatus, Htask.
  vm_compute. auto.
Defined.

(** * createTask *)

(** X11. [createTask] never fails half-way: a call that throws throws
    InvalidInput and leaves the manager exactly as it was, so a rejected
    input uses up neither an identifier nor a code number. (The identifier
    is taken before the code is requested; the request cannot fail, since
    the key it is given has already been validated.) *)
Theorem createTask_failure_atomic (input : jsval) (now : Z) (σ σ' : state) (e : error) :
  createTask input now σ = (inl e, σ') -> e = InvalidInputError ∧ σ' = σ.
Proof.
  intros Hc.
  destruct (createTask_cases input now σ)
    as [Hf|(title & priority & key & _ & _ & _ & _ & Hs)]; [|congruence].
  rewrite Hf in Hc. by injection Hc as <- <-.
Qed.

Lemma createTask_failure_atomic_witness :
  snd (createTask (VObj [("title", VStr "A"); ("projectKey", VStr "1X")]) 3
         old_task_state)
  = old_task_state.
Proof.
  apply (createTask_failure_atomic
           (VObj [("title", VStr "A"); ("projectKey", VStr "1X")]) 3
           old_task_state
           (snd (createTask (VObj [("title", VStr "A"); ("projectKey", VStr "1X")]) 3
                   old_task_state))
           InvalidInputError).
  vm_compute. reflexivity.
Defined.

Lemma createTask_success input now σ t σ' :
  createTask input now σ = (inr t, σ') ->
  ∃ s priority key,
    prop input "title" = VStr s ∧ trim s ≠ ""
    ∧ coalesce (prop input "priority") (VStr PRIORITIES.MEDIUM) = VStr priority
    ∧ priority ∈ VALID_PRIORITY
    ∧ validateProjectKey (coalesce (prop input "projectKey") (VStr "TASK")) = inr key
    ∧ t = length (objs σ)
    ∧ σ' = created σ (trim s) (coalesce (prop input "description") (VStr ""))
             priority key now.
Proof.
  unfold createTask.
  destruct (negb (truthy input) || _); [done|].
  destruct (prop input "title") as [| | | |s|] eqn:Htitle; try done.
  destruct (String.eqb_spec (trim s) "") as [|Hs]; [done|].
  destruct (has VALID_PRIORITY _) as [priority|] eqn:Hp; [|done].
  apply has_elem in Hp as [Hp Hin].
  unfold mbind at 1, M_bind at 1.
  destruct (validateProjectKey (coalesce _ _)) as [e|key] eqn:Hkey; [done|].
  unfold lift, mret, M_ret. cbv beta iota.
  unfold post_incr_nextId, codes_next, new_Task, tasks_push. run_M.
  rewrite (next_valid _ _ _ (validateProjectKey_idem _ _ Hkey)).
  intros [= <- <-]. by exists s, priority, key.
Qed.

(** X12. A successful [createTask] in a reachable state appends one task
    at the end of the store and returns it. The task has the next
    identifier, the code of the normalized project key (key TASK when none
    is given) with that key's next number, the trimmed title, the given
    description or the empty string, the given priority or [medium],
    status [todo], both timestamps at the clock reading and no
    [completedAt]; the identifier counter and the key's counter go up by
    one, and no existing task changes. *)
Theorem createTask_result (input : jsval) (now : Z) (σ σ' : state) (t : loc) :
  reachable σ ->
  createTask input now σ = (inr t, σ') ->
  ∃ s priority key,
    prop input "title" = VStr s
    ∧ coalesce (prop input "priority") (VStr "medium") = VStr priority
    ∧ validateProjectKey (coalesce (prop input "projectKey") (VStr "TASK")) = inr key
    ∧ objs σ !! t = None
    ∧ objs σ' = objs σ ++
        [Task.mk (_nextId σ) (key +:+ "-" +:+ pretty (counter (_codes σ) key + 1))
           (trim s) (coalesce (prop input "description") (VStr ""))
           "todo" priority now now None]
    ∧ store σ' = store σ ++ [t]
    ∧ _nextId σ' = _nextId σ + 1
    ∧ counter (_codes σ') key = counter (_codes σ) key + 1
    ∧ (∀ key', key' ≠ key -> counter (_codes σ') key' = counter (_codes σ) key').
Proof.
  intros Hok%reachable_ok
    (s & priority & key & Hs & _ & Hp & _ & Hk & -> & ->)%createTask_success.
  exists s, priority, key. split_and!; try done.
  - by apply lookup_ge_None_2.
  - by apply created_store.
  - simpl. rewrite counter_insert. by case_decide.
  - intros key' Hne. simpl. rewrite counter_insert. by case_decide.
Qed.

Lemma createTask_result_witness :
  ∃ s priority key,
    prop (VObj [("title", VStr " B ")]) "title" = VStr s
    ∧ priority = "medium" ∧ key = "TASK" ∧ trim s = "B".
Proof.
  destruct (createTask_result (VObj [("title", VStr " B ")]) 5 old_task_state
              (snd (createTask (VObj [("title", VStr " B ")]) 5 old_task_state))
              1%nat)
    as (s & priority & key & Hs & Hp & Hk & _).
  - apply reachable_run, reachable_new.
  - vm_compute. reflexivity.
  - exists s, priority, key. split; [exact Hs|].
    injection Hs as <-. vm_compute in Hp, Hk.
    injection Hp as <-. injection Hk as <-. auto.
Defined.

(** * What never changes *)

Lemma exec_objs c now σ : heap_ok σ -> objs_step σ (objs (snd (exec c now σ))).
Proof.
  intros Hok.
  destruct c; unfold exec, listTasks, filterByStatus, filterByPriority,
    searchByTitle, countByStatus, new_Array.
  - unfold fmap, M_fmap.
    destruct (createTask_cases input now σ)
      as [->|(title & priority & key & _ & _ & _ & _ & ->)]; simpl;
      [apply objs_same|apply objs_new].
  - run_M. apply objs_same.
  - unfold fmap, M_fmap. pose proof (getTask_state id σ) as Hs.
    destruct (getTask id σ) as [[e|t] σ']; simpl in *; subst; apply objs_same.
  - unfold findByCode. destruct code as [| | | |c|]; try (run_M; apply objs_same).
    destruct (negb _); [run_M; apply objs_same|]. run_M.
    destruct (List.find _ _); simpl; apply objs_same.
  - unfold fmap, M_fmap.
    destruct (getTask id σ) as [[e|t] σ'] eqn:Hget.
    { unfold updateTask, mbind, M_bind. rewrite Hget.
      pose proof (getTask_state id σ) as Hs. rewrite Hget in Hs.
      simpl in *. subst. apply objs_same. }
    pose proof Hget as (-> & Hin & _)%getTask_found.
    destruct (negb (truthy changes) || negb (String.eqb (typeof changes) "object"))
      eqn:Hobj.
    { unfold updateTask, mbind, M_bind. rewrite Hget, Hobj. simpl. apply objs_same. }
    apply orb_false_elim in Hobj as [Htr Hty].
    apply negb_false_iff in Htr. apply negb_false_iff, String.eqb_eq in Hty.
    rewrite (updateTask_found _ _ _ _ _ Hok Hget Htr Hty).
    destruct (fst (field_changes _ now)); simpl; by apply objs_changed.
  - unfold fmap, M_fmap.
    destruct (getTask id σ) as [[e|t] σ'] eqn:Hget.
    { unfold changeStatus, mbind, M_bind. rewrite Hget.
      pose proof (getTask_state id σ) as Hs. rewrite Hget in Hs.
      simpl in *. subst. apply objs_same. }
    pose proof Hget as (-> & Hin & _)%getTask_found.
    rewrite (changeStatus_found _ _ _ _ _ Hok Hget).
    destruct (fst (field_changes _ now)); simpl; by apply objs_changed.
  - unfold removeTask. destruct (negb _); [run_M; apply objs_same|].
    unfold tasks_splice. run_M.
    destruct (findIndex _ _); simpl; apply objs_same.
  - destruct (has _ _); run_M; apply objs_same.
  - destruct (has _ _); run_M; apply objs_same.
  - destruct query as [| | | |s|]; try (run_M; apply objs_same).
    destruct (String.eqb _ _); run_M; apply objs_same.
  - run_M. apply objs_same.
Qed.

Lemma field_changes_keeps changes now x :
  let y := snd (field_changes changes now) x in
  Task.id y = Task.id x ∧ Task.code y = Task.code x
  ∧ Task.createdAt y = Task.createdAt x.
Proof.
  unfold field_changes, change_title, change_description, change_priority,
    change_status.
  repeat match goal with
  | |- context [negb (nullish ?v)] => destruct (nullish v); simpl
  | |- context [match prop ?c ?k with _ => _ end] => destruct (prop c k); simpl
  | |- context [String.eqb (trim ?s) ""] => destruct (String.eqb (trim s) ""); simpl
  | |- context [has ?set ?v] => destruct (has set v); simpl
  end; done.
Qed.

Lemma objs_step_keeps σ l r x :
  objs_step σ l -> objs σ !! r = Some x ->
  ∃ y, l !! r = Some y ∧ Task.id y = Task.id x ∧ Task.code y = Task.code x
       ∧ Task.createdAt y = Task.createdAt x.
Proof.
  intros [|x'|t changes now Hin] Hx.
  - by exists x.
  - exists x. split; [|done]. by apply lookup_app_l_Some.
  - rewrite list_lookup_alter. case_decide as Hr; [subst r|by exists x].
    rewrite Hx. simpl. eexists. split; [done|]. apply field_changes_keeps.
Qed.

(** X13. Task objects are never destroyed and their identity is fixed:
    a Task object that exists in a reachable state still exists after any
    further sequence of API calls (also when it has been removed from the
    store), with the same identifier, the same code and the same
    [createdAt]. *)
Theorem task_identity_immutable (cs : list (call * Z)) (σ : state) (r : loc) (x : Task.t) :
  reachable σ -> objs σ !! r = Some x ->
  ∃ y, objs (run cs σ) !! r = Some y
       ∧ Task.id y = Task.id x ∧ Task.code y = Task.code x
       ∧ Task.createdAt y = Task.createdAt x.
Proof.
  revert σ x. induction cs as [|[c now] cs IH]; intros σ x Hr Hx; [by exists x|].
  destruct (objs_step_keeps _ _ _ _ (exec_objs c now σ (reachable_ok _ Hr)) Hx)
    as (y & Hy & Hid & Hcode & Hcreated).
  destruct (IH (snd (exec c now σ)) y) as (z & Hz & ? & ? & ?);
    [by constructor|done|].
  exists z. simpl. split_and!; [done|congruence..].
Qed.

Lemma task_identity_immutable_witness :
  ∃ y, objs (run [(UpdateTask (num 1) (VObj [("title", VStr "New")]), 4);
                  (ChangeStatus (num 1) (VStr "done"), 5);
                  (RemoveTask (num 1), 6)] old_task_state) !! 0%nat = Some y
       ∧ Task.id y = 1 ∧ Task.code y = "PROJ-1" ∧ Task.createdAt y = 1.
Proof.
  apply (task_identity_immutable
           [(UpdateTask (num 1) (VObj [("title", VStr "New")]), 4);
            (ChangeStatus (num 1) (VStr "done"), 5);
            (RemoveTask (num 1), 6)] old_task_state 0%nat
           (Task.mk 1 "PROJ-1" "Old" (VStr "") "todo" "medium" 1 1 None)).
  - apply reachable_run, reachable_new.
  - vm_compute. reflexivity.
Defined.

(** * The bracket validator *)

Lemma str_app_assoc s t u : (s +:+ t) +:+ u = s +:+ (t +:+ u).
Proof. induction s as [|c s IH]; [done|]. by rewrite !str_app_cons, IH. Qed.

Lemma str_app_nil_r s : s +:+ "" = s.
Proof. induction s as [|c s IH]; [done|]. by rewrite str_app_cons, IH. Qed.

Lemma str_length_app s t :
  String.length (s +:+ t) = (String.length s + String.length t)%nat.
Proof. induction s as [|c s IH]; [done|]. rewrite str_app_cons. simpl. by rewrite IH. Qed.

Lemma opens_cases o :
  Brackets.opens o = true -> o = "("%char ∨ o = "["%char ∨ o = "{"%char.
Proof.
  unfold Brackets.opens. rewrite !orb_true_iff, !Ascii.eqb_eq. tauto.
Qed.

Lemma opens_closing o :
  Brackets.opens o = true ->
  Brackets.closes o = false
  ∧ Brackets.opens (Brackets.closing_of o) = false
  ∧ Brackets.closes (Brackets.closing_of o) = true
  ∧ Brackets.match_of (Brackets.closing_of o) = Some o.
Proof. by intros [->|[->| ->]]%opens_cases. Qed.

Lemma match_of_closing ch o :
  Brackets.match_of ch = Some o ->
  Brackets.opens o = true ∧ ch = Brackets.closing_of o.
Proof.
  unfold Brackets.match_of.
  destruct (Ascii.eqb_spec ch ")") as [->|_]; [by intros [= <-]|].
  destruct (Ascii.eqb_spec ch "]") as [->|_]; [by intros [= <-]|].
  destruct (Ascii.eqb_spec ch "}") as [->|_]; [by intros [= <-]|done].
Qed.

Lemma closes_match ch :
  Brackets.closes ch = true -> is_Some (Brackets.match_of ch).
Proof.
  unfold Brackets.closes, Brackets.match_of.
  rewrite !orb_true_iff, !Ascii.eqb_eq. by intros [[->| ->]| ->].
Qed.

(** Reading a balanced string leaves the stack as it was. *)
Lemma scan_balanced w :
  Brackets.balanced w ->
  ∀ rest i stack,
    Brackets.scan (w +:+ rest) i stack
    = Brackets.scan rest (i + String.length w) stack.
Proof.
  induction 1 as [|o w Ho Hw IH|u v Hu IHu Hv IHv]; intros rest i stack.
  - by rewrite Nat.add_0_r.
  - destruct (opens_closing o Ho) as (Hoc & Hco & Hcc & Hm).
    rewrite str_app_cons, str_app_assoc. cbn [Brackets.scan].
    rewrite Ho. cbn [negb andb]. rewrite IH, str_app_cons.
    cbn [Brackets.scan fst]. rewrite Hco, Hcc, Hm. cbn [negb andb].
    rewrite bool_decide_eq_true_2 by done. cbn [negb].
    f_equal. cbn [String.length]. rewrite str_length_app. simpl. lia.
  - rewrite str_app_assoc, IHu, IHv, str_length_app. f_equal. lia.
Qed.

Lemma unwinds_prepend u pending r :
  Brackets.balanced u -> Brackets.unwinds pending r ->
  Brackets.unwinds pending (u +:+ r).
Proof.
  intros Hu. destruct pending as [|o outer]; simpl.
  - by apply Brackets.balanced_concat.
  - intros (w & r' & -> & Hw & Hr'). exists (u +:+ w), r'.
    split_and!; [by rewrite str_app_assoc| |done].
    by apply Brackets.balanced_concat.
Qed.

(** A scan that ends without an error has read what the open brackets
    were waiting for. *)
Lemma scan_valid_unwinds s :
  ∀ i stack,
    Brackets.valid (Brackets.scan s i stack) = true ->
    Brackets.unwinds (fst <$> stack) s.
Proof.
  induction s as [|ch s IH]; intros i stack; cbn [Brackets.scan].
  - destruct stack as [|top below]; [intros _; constructor|].
    destruct (last (top :: below)) eqn:Hlast; [done|].
    by apply last_None in Hlast.
  - destruct (Brackets.opens ch) eqn:Ho; cbn [negb andb].
    + intros Hvalid%IH. cbn [fmap list_fmap fst] in Hvalid.
      destruct Hvalid as (w & r & -> & Hw & Hr).
      change (String ch (w +:+ String (Brackets.closing_of ch) r))
        with (String ch (w +:+ String (Brackets.closing_of ch) ("" +:+ r))).
      rewrite <-(str_app_cons (Brackets.closing_of ch) "" r), <-str_app_assoc.
      rewrite <-str_app_cons. apply unwinds_prepend; [|done].
      by apply Brackets.balanced_wrap.
    + destruct (Brackets.closes ch) eqn:Hc; cbn [negb]; [|done].
      destruct stack as [|[o j] below]; [done|]. cbn [fst].
      case_bool_decide as Hm; cbn [negb]; [|done].
      intros Hvalid%IH. symmetry in Hm.
      apply match_of_closing in Hm as [_ ->].
      exists "", s. split_and!; [done|constructor|done].
Qed.

(** X14. [isValid] accepts exactly the balanced strings: the empty
    string, a balanced string enclosed in [()], [[]] or [{}], and the
    concatenation of two balanced strings; any other string, and any
    string with a character that is not a bracket, is rejected. *)
Theorem isValid_balanced (s : string) :
  Brackets.isValid s = true ↔ Brackets.balanced s.
Proof.
  unfold Brackets.isValid, Brackets.findFirstError. split.
  - intros Hvalid. by apply (scan_valid_unwinds s 0 []).
  - intros Hs. rewrite <-(str_app_nil_r s), (scan_balanced s Hs). done.
Qed.

Example isValid_nested : Brackets.isValid "{[()()]}" = true.
Proof. reflexivity. Qed.

Example findFirstError_mismatch :
  Brackets.findFirstError "([)]"
  = Brackets.mk_report false (Some Brackets.MISMATCH) 2 ")".
Proof. reflexivity. Qed.

Example findFirstError_unclosed :
  Brackets.findFirstError "()[{"
  = Brackets.mk_report false (Some Brackets.UNCLOSED_OPENING) 2 "[".
Proof. reflexivity. Qed.

Lemma get_app_length pre ch rest :
  String.get (String.length pre) (pre +:+ String ch rest) = Some ch.
Proof. induction pre as [|c pre IH]; [done|]. by rewrite str_app_cons. Qed.

Lemma get_lt p s ch : String.get p s = Some ch -> (p < String.length s)%nat.
Proof.
  revert p. induction s as [|c s IH]; intros p; [done|].
  destruct p as [|p]; simpl; [lia|]. intros Hp%IH. lia.
Qed.

Lemma scan_accurate s :
  ∀ full pre stack,
    full = pre +:+ s ->
    Forall (λ entry, String.get (snd entry) full = Some (fst entry)
                     ∧ Brackets.opens (fst entry) = true) stack ->
    Brackets.accurate full (Brackets.scan s (String.length pre) stack).
Proof.
  induction s as [|ch s IH]; intros full pre stack Hfull Hstack;
    cbn [Brackets.scan].
  - destruct (last stack) as [[o j]|] eqn:Hlast; [|by left].
    right. split; [done|]. apply last_Some_elem_of in Hlast.
    rewrite Forall_forall in Hstack. destruct (Hstack _ Hlast) as [Hget Ho].
    simpl in *. exists Brackets.UNCLOSED_OPENING, o, j.
    split_and!; try done. by eapply get_lt.
  - assert (String.get (String.length pre) full = Some ch) as Hget
      by (subst full; apply get_app_length).
    assert (∀ e, Brackets.reported_at e ch ->
              Brackets.accurate full
                (Brackets.mk_report false (Some e)
                   (Z.of_nat (String.length pre)) (String ch ""))) as Hhere.
    { intros e He. right. split; [done|]. exists e, ch, (String.length pre).
      split_and!; try done. by eapply get_lt. }
    assert (∀ stack',
              Forall (λ entry, String.get (snd entry) full = Some (fst entry)
                               ∧ Brackets.opens (fst entry) = true) stack' ->
              Brackets.accurate full
                (Brackets.scan s (S (String.length pre)) stack')) as Hnext.
    { intros stack' Hstack'.
      replace (S (String.length pre))
        with (String.length (pre +:+ String ch ""))
        by (rewrite str_length_app; simpl; lia).
      apply IH; [|done]. by rewrite Hfull, str_app_assoc. }
    destruct (Brackets.opens ch) eqn:Ho; cbn [negb andb].
    + apply Hnext. by constructor.
    + destruct (Brackets.closes ch) eqn:Hc; cbn [negb].
      * destruct stack as [|top below]; [by apply Hhere|].
        case_bool_decide; cbn [negb]; [|by apply Hhere].
        apply Hnext. by eapply Forall_inv_tail.
      * by apply Hhere.
Qed.

(** X15. The report of [findFirstError] is accurate: either the string is
    valid and the report carries no error, position -1 and an empty
    character; or it is not, and the report names an error kind together
    with an index inside the string and the character found at that index,
    which is a closing bracket for UNEXPECTED_CLOSING and MISMATCH, an
    opening bracket for UNCLOSED_OPENING and a character that is no
    bracket for INVALID_CHARACTER. *)
Theorem findFirstError_accurate (s : string) :
  Brackets.accurate s (Brackets.findFirstError s)
  ∧ Brackets.isValid s = Brackets.valid (Brackets.findFirstError s)
  ∧ (Brackets.isValid s = true ↔ Brackets.error (Brackets.findFirstError s) = None).
Proof.
  pose proof (scan_accurate s s "" [] eq_refl (Forall_nil_2 _)) as Hacc.
  change (Brackets.scan s (String.length "") []) with (Brackets.findFirstError s)
    in Hacc.
  split; [done|]. split; [done|]. unfold Brackets.isValid.
  destruct Hacc as [(-> & -> & _)|(-> & e & ch & p & -> & _)]; by split.
Qed.

Lemma scan_prefix u v e :
  ∀ i stack,
    Brackets.error (Brackets.scan u i stack) = Some e ->
    e ≠ Brackets.UNCLOSED_OPENING ->
    Brackets.scan (u +:+ v) i stack = Brackets.scan u i stack.
Proof.
  induction u as [|ch u IH]; intros i stack; cbn [Brackets.scan].
  - destruct (last stack); simpl; [|done]. by intros [= <-].
  - rewrite str_app_cons. cbn [Brackets.scan].
    destruct (negb (Brackets.opens ch) && negb (Brackets.closes ch)); [done|].
    destruct (Brackets.opens ch); [by apply IH|].
    destruct stack as [|top below]; [done|].
    destruct (negb (bool_decide _)); [done|]. by apply IH.
Qed.

(** X16. An error met while reading stands: when [findFirstError] reports
    INVALID_CHARACTER, UNEXPECTED_CLOSING or MISMATCH for a string, it
    returns the same report, with the same position, for every extension
    of that string. (UNCLOSED_OPENING is found at the end of the input and
    can be repaired by what follows.) *)
Theorem findFirstError_prefix (u v : string) (e : Brackets.error_kind) :
  Brackets.error (Brackets.findFirstError u) = Some e ->
  e ≠ Brackets.UNCLOSED_OPENING ->
  Brackets.findFirstError (u +:+ v) = Brackets.findFirstError u.
Proof. intros He Hne. by apply (scan_prefix u v e). Qed.

Lemma findFirstError_prefix_witness :
  Brackets.findFirstError ("(]" +:+ ")[x")
  = Brackets.mk_report false (Some Brackets.MISMATCH) 1 "]".
Proof.
  rewrite (findFirstError_prefix "(]" ")[x" Brackets.MISMATCH).
  - reflexivity.
  - reflexivity.
  - discriminate.
Defined.
